(** * wdk-failover-provider: the failover factory and its dispatch engine

    A shallow embedding of [src/failover-provider.js] (class
    [FailoverProvider] and the helper [uid]) and the properties of its
    provider registry and of the retry engine behind the proxy.

    Conventions of the embedding.
    - The instance ([this]) is the record [FailoverProvider]; every method
      that reads or writes [this] passes it explicitly, inside a [world]
      that also carries the log of what was asked of the providers.
    - A thrown value is an ordinary JavaScript value ([value]); a function
      that may throw returns a [completion].
    - [Reflect.get (target.provider, p, receiver)] runs the provider's code
      for the member with [this] bound to the receiver, which is the proxy:
      an accessor that reads [this.q] reads through the trap again, and that
      read is an access of its own, with its own retries, able to move the
      active index. A member is therefore an [accessor]: it gives its
      result at once, or first reads members through the receiver.
    - The closure [(...args) => ...] returned by [_proxy] is a Rocq
      function; the promise it may return is a [promise], whose reaction
      (the [.catch] handler) is a job run later on the world of that
      moment.
    - The nesting of reads through the proxy is bounded by the stack of the
      runtime; [read] carries the number of reads that may still nest.

    What is left out. A method answers a call the same way each time and
    touches the proxy only through what it returns; an accessor computes
    with the values it reads through [this], and one that calls a function
    read that way, or returns it, is outside the model. [retries] is a
    natural number, and the predicate [shouldRetryOn] a total function to
    [bool]. *)

From Stdlib Require Import List String Ascii Arith ZArith QArith Qround Lia Bool.
From Stdlib Require Import DecimalString.
Import ListNotations.

Local Open Scope string_scope.
Local Open Scope list_scope.
Local Open Scope nat_scope.

(** ** JavaScript values and completions *)

(** The values the engine looks at. [VError] is any object for which
    [instanceof Error] holds ([Error], [TypeError], subclasses): [name] is
    the constructor name, [message] its message. Everything else is not an
    [Error], in particular strings, numbers and plain objects, which
    JavaScript lets a program throw or reject with as well. *)
Inductive value : Type :=
| VUndefined
| VNull
| VBool (b : bool)
| VNumber (n : Z)
| VString (s : string)
| VObject (tag : string)
| VError (name message : string).

(** [error instanceof Error] *)
Definition instanceof_Error (error : value) : bool :=
  match error with
  | VError _ _ => true
  | _ => false
  end.

(** Normal return or [throw]. *)
Inductive completion (A : Type) : Type :=
| Normal (a : A)
| Throw (er : value).
Arguments Normal {A} a.
Arguments Throw {A} er.

(** The [TypeError] of reading a property of [undefined]. *)
Definition TypeError_undefined : value :=
  VError "TypeError" "Cannot read properties of undefined".

(** The [RangeError] of a stack that is full. *)
Definition RangeError_stack : value :=
  VError "RangeError" "Maximum call stack size exceeded".

(** ** Providers *)

(** How the promise returned by a provider's method settles. *)
Inductive settlement : Type :=
| Resolves (v : value)
| Rejects (er : value)
| NeverSettles.

(** [prop.apply(target.provider, args)], by what the engine does with it.
    - [Returns re]: a return value whose [then] is absent or falsy; a
      promise is never one of these.
    - [Throws er]: a synchronous [throw].
    - [Thenable s]: a promise, on which [re.then(...).catch(...)] chains.
    - [Unchainable er]: a value with a truthy [then] that is no promise
      ([then] or the [catch] of what it returns is no function, or throws):
      [re.then(...).catch(...)] throws [er], a [TypeError] of the runtime
      in the first cases.
    A thenable of a program's own that calls the reactions in another way
    than a promise does has no counterpart here. *)
Inductive invocation : Type :=
| Returns (re : value)
| Throws (er : value)
| Thenable (s : settlement)
| Unchainable (er : value).

(** The completion of [Reflect.get(target.provider, p, receiver)]: the
    provider's code throws, or the member is a function
    ([typeof prop === 'function']), or it is anything else (a missing
    member reads as [VUndefined]; a promise kept in a member is a value like
    any other, which the engine hands on untouched). *)
Inductive lookup : Type :=
| GetThrows (er : value)
| GetValue (prop : value)
| GetFunction (prop : list value -> invocation).

(** What an accessor sees of a member it has read through [this]: the read
    threw, or gave a value, or gave a function. *)
Inductive seen : Type :=
| SeenThrow (er : value)
| SeenValue (v : value)
| SeenFunction.

(** The code [Reflect.get] runs for a member. [Gives l]: a data property,
    or an accessor that looks at nothing through [this]. [ReadsThis q k]:
    an accessor that reads [this.q] and goes on as [k] says with what it
    saw; [this] is the receiver, so the read goes through the proxy. *)
Inductive accessor : Type :=
| Gives (l : lookup)
| ReadsThis (q : string) (k : seen -> accessor).

Record Provider : Type := { member : string -> accessor }.

(** [ProviderProxy<T>]: [{ id, provider, ms }]. *)
Record ProviderProxy : Type := {
  id : string;
  provider : Provider;
  ms : Z
}.

(** ** The factory instance *)

Record FailoverProvider : Type := {
  _retries : nat;
  _shouldRetryOn : value -> bool;
  _activeProvider : nat;
  _providers : list ProviderProxy
}.

(** [this._activeProvider = i] *)
Definition set_activeProvider (this : FailoverProvider) (i : nat) : FailoverProvider :=
  {| _retries := _retries this;
     _shouldRetryOn := _shouldRetryOn this;
     _activeProvider := i;
     _providers := _providers this |}.

(** What the engine asked of a provider: one [Reflect.get], one
    [prop.apply]. The log is not a field of the program; it records the
    order of these requests so that they can be counted. *)
Inductive event : Type :=
| EGet (target : ProviderProxy) (p : string)
| EApply (target : ProviderProxy) (p : string) (args : list value).

(** The instance and the requests made so far, most recent first. *)
Record world : Type := {
  self : FailoverProvider;
  log : list event
}.

Definition record (ev : event) (w : world) : world :=
  {| self := self w; log := ev :: log w |}.

Definition with_self (w : world) (this : FailoverProvider) : world :=
  {| self := this; log := log w |}.

(** ** What a call through the proxy gives back *)

(** The result of calling the closure returned by [_proxy], and the promise
    [re.then(...).catch(...)]: already fulfilled, never settling, or waiting
    for its [catch] reaction, a job that runs later, on the world of that
    moment. A job that returns a promise makes the outer promise follow
    it; one that throws rejects it. ([Rejected] never comes out of the closure
    directly: a rejection always goes through the [catch] reaction; it is
    the state a promise is in once that reaction has thrown.) *)
Inductive called : Type :=
| Returned (re : value)
| Threw (er : value)
| Promised (pr : promise)
with promise : Type :=
| Fulfilled (re : value)
| Rejected (er : value)
| Pending
| Reaction (job : world -> called * world).

(** The result of [_proxy]: it throws, returns the member as it is, or
    returns the closure [(...args) => ...]. *)
Inductive proxied : Type :=
| PThrow (er : value)
| PValue (prop : value)
| PFunction (f : list value -> world -> called * world).

(** A read of a member of the receiver, as the code of a provider makes
    it: [receiver q] is [this.q]. *)
Definition proxy_reader : Type := string -> world -> proxied * world.

Definition see (r : proxied) : seen :=
  match r with
  | PThrow er => SeenThrow er
  | PValue v => SeenValue v
  | PFunction _ => SeenFunction
  end.

(** ** [Reflect.get] *)

Fixpoint run_accessor (a : accessor) (receiver : proxy_reader) (w : world)
  {struct a} : lookup * world :=
  match a with
  | Gives l => (l, w)
  | ReadsThis q k =>
      let (r, w) := receiver q w in
      run_accessor (k (see r)) receiver w
  end.

(** [Reflect.get (target.provider, p, receiver)] *)
Definition Reflect_get (target_provider : Provider) (p : string)
  (receiver : proxy_reader) (w : world) : lookup * world :=
  run_accessor (member target_provider p) receiver w.

(** ** [_switch] *)

(** [_switch (failedProvider)]. Reading [.id] of a missing entry is the
    [TypeError] JavaScript raises there. *)
Definition _switch (failedProvider : ProviderProxy) (w : world)
  : completion ProviderProxy * world :=
  let this := self w in
  match nth_error (_providers this) (_activeProvider this) with
  | None => (Throw TypeError_undefined, w)
  | Some current =>
      let this' :=
        if String.eqb (id failedProvider) (id current)
        then set_activeProvider this
               ((_activeProvider this + 1) mod List.length (_providers this))
        else this in
      match nth_error (_providers this') (_activeProvider this') with
      | Some selected => (Normal selected, with_self w this')
      | None => (Throw TypeError_undefined, with_self w this')
      end
  end.

(** ** [_proxy] *)

(** [_proxy (target, p, receiver, retries)]. [retries] is the count of
    additional attempts left: [retries <= 0] is [0], and the recursive
    calls pass [retries - 1]. The [catch] block of the synchronous path and
    the [catch] reaction of the promise have the same body, [on_failure].
    [re.then(...).catch(...)] stands after the [try], so what it throws is
    not caught. *)
Fixpoint _proxy (retries : nat) (target : ProviderProxy) (p : string)
  (receiver : proxy_reader) (w : world) {struct retries} : proxied * world :=
  let w := record (EGet target p) w in
  match Reflect_get (provider target) p receiver w with
  | (GetValue prop, w) => (PValue prop, w)
  | (GetThrows er, w) =>
      match retries with
      | 0 => (PThrow er, w)
      | S retries' =>
          if negb (_shouldRetryOn (self w) er) then (PThrow er, w)
          else
            match _switch target w with
            | (Throw er', w) => (PThrow er', w)
            | (Normal provider, w) => _proxy retries' provider p receiver w
            end
      end
  | (GetFunction prop, w) =>
      (PFunction (fun args w =>
         let on_failure (er : value) (w : world) : called * world :=
           match retries with
           | 0 => (Threw er, w)
           | S retries' =>
               if negb (_shouldRetryOn (self w) er) then (Threw er, w)
               else
                 match _switch target w with
                 | (Throw er', w) => (Threw er', w)
                 | (Normal provider, w) =>
                     match _proxy retries' provider p receiver w with
                     | (PFunction property, w) => property args w
                     | (PValue property, w) => (Returned property, w)
                     | (PThrow er', w) => (Threw er', w)
                     end
                 end
           end in
         let w := record (EApply target p args) w in
         match prop args with
         | Returns re => (Returned re, w)
         | Throws er => on_failure er w
         | Thenable (Resolves re) => (Promised (Fulfilled re), w)
         | Thenable (Rejects er) => (Promised (Reaction (on_failure er)), w)
         | Thenable NeverSettles => (Promised Pending, w)
         | Unchainable er => (Threw er, w)
         end), w)
  end.

(** The two functions [_proxy] builds, under names of their own: the body
    shared by the [catch] block and the [catch] reaction, and the closure
    [(...args) => ...] over [target], [p], [receiver], [prop] and
    [retries]. *)
Definition on_failure (retries : nat) (target : ProviderProxy) (p : string)
  (receiver : proxy_reader) (args : list value) (er : value) (w : world)
  : called * world :=
  match retries with
  | 0 => (Threw er, w)
  | S retries' =>
      if negb (_shouldRetryOn (self w) er) then (Threw er, w)
      else
        match _switch target w with
        | (Throw er', w) => (Threw er', w)
        | (Normal provider, w) =>
            match _proxy retries' provider p receiver w with
            | (PFunction property, w) => property args w
            | (PValue property, w) => (Returned property, w)
            | (PThrow er', w) => (Threw er', w)
            end
        end
  end.

Definition closure (retries : nat) (target : ProviderProxy) (p : string)
  (receiver : proxy_reader) (prop : list value -> invocation)
  (args : list value) (w : world) : called * world :=
  let w := record (EApply target p args) w in
  match prop args with
  | Returns re => (Returned re, w)
  | Throws er => on_failure retries target p receiver args er w
  | Thenable (Resolves re) => (Promised (Fulfilled re), w)
  | Thenable (Rejects er) =>
      (Promised (Reaction (on_failure retries target p receiver args er)), w)
  | Thenable NeverSettles => (Promised Pending, w)
  | Unchainable er => (Threw er, w)
  end.

(** ** Awaiting *)

(** The promise once every reaction that is ready has run, with nothing
    else touching the instance in between: what [await] observes when the
    call is the only one in flight. *)
Fixpoint settle (pr : promise) (w : world) {struct pr} : promise * world :=
  match pr with
  | Reaction job =>
      match job w with
      | (Returned re, w) => (Fulfilled re, w)
      | (Threw er, w) => (Rejected er, w)
      | (Promised pr', w) => settle pr' w
      end
  | _ => (pr, w)
  end.

Definition await (r : called * world) : called * world :=
  match r with
  | (Promised pr, w) => let (pr', w') := settle pr w in (Promised pr', w')
  | _ => r
  end.

(** ** [constructor], [uid], [addProvider], [initialize] *)

(** The argument of the constructor; an absent field takes its default. *)
Record FailoverProviderConfig : Type := {
  retries : option nat;
  shouldRetryOn : option (value -> bool)
}.

(** [new FailoverProvider()] *)
Definition no_config : FailoverProviderConfig :=
  {| retries := None; shouldRetryOn := None |}.

Definition constructor (config : FailoverProviderConfig) : FailoverProvider :=
  {| _retries := match retries config with Some r => r | None => 3 end;
     _shouldRetryOn :=
       match shouldRetryOn config with
       | Some f => f
       | None => fun error => instanceof_Error error
       end;
     _activeProvider := 0;
     _providers := [] |}.

(** The successive results of [Math.random()], each at least 0 and below 1. *)
Definition random : Type := nat -> Q.

Definition Math_random (rnd : random) : Q * random :=
  (rnd 0, fun n => rnd (S n)).

(** [Math.round]: the nearest integer, halves upwards. *)
Definition Math_round (x : Q) : Z := Qfloor (x + (1 # 2))%Q.

(** The decimal digits appended by [id += n]. *)
Definition Number_toString (n : Z) : string :=
  NilZero.string_of_int (Z.to_int n).

(** The loop of [uid]. Every turn appends at least one character, so [len]
    turns are enough ([uid_loop_length] below). *)
Fixpoint uid_loop (turns len : nat) (id : string) (rnd : random)
  {struct turns} : string * random :=
  if String.length id <? len then
    match turns with
    | 0 => (id, rnd)
    | S turns' =>
        let (x, rnd) := Math_random rnd in
        uid_loop turns' len (id ++ Number_toString (Math_round (x * 10)%Q))%string rnd
    end
  else (id, rnd).

Definition uid (len : nat) (rnd : random) : completion string * random :=
  if (len <? 1) || (256 <? len) then
    (Throw (VError "Error" "The UID length must be between 1 and 256 characters."),
     rnd)
  else
    let (id, rnd) := uid_loop len len "" rnd in (Normal id, rnd).

(** [addProvider (provider)]: [uid()] takes its default length, 12. The
    method returns [this]. *)
Definition addProvider (provider : Provider) (this : FailoverProvider)
  (rnd : random) : completion FailoverProvider * random :=
  match uid 12 rnd with
  | (Throw er, rnd) => (Throw er, rnd)
  | (Normal id, rnd) =>
      (Normal {| _retries := _retries this;
                 _shouldRetryOn := _shouldRetryOn this;
                 _activeProvider := _activeProvider this;
                 _providers :=
                   _providers this
                   ++ [ {| id := id; provider := provider; ms := 0 |} ] |},
       rnd)
  end.

(** [new Proxy(provider, { get })]: the wrapped object and the trap, which
    the runtime calls with the member and the receiver. *)
Record Proxy : Type := {
  proxy_target : Provider;
  proxy_get : string -> proxy_reader -> world -> proxied * world
}.

(** The [get] trap: [this._proxy(this._providers[this._activeProvider], p,
    receiver)], with [retries] defaulting to [this._retries]. With no entry
    at the active index, [target.provider] raises a [TypeError] inside
    [_proxy], and either the retry test rethrows it or [_switch] raises it
    again on [failedProvider.id]. *)
Definition get_trap (p : string) (receiver : proxy_reader) (w : world)
  : proxied * world :=
  match nth_error (_providers (self w)) (_activeProvider (self w)) with
  | Some target => _proxy (_retries (self w)) target p receiver w
  | None => (PThrow TypeError_undefined, w)
  end.

Definition initialize (this : FailoverProvider) : completion Proxy :=
  match _providers this with
  | [] =>
      Throw (VError "Error"
        "Cannot initialize an empty provider. Call `addProvider` before this function.")
  | {| provider := provider |} :: _ =>
      Normal {| proxy_target := provider; proxy_get := get_trap |}
  end.

(** [proxy.p]: the runtime calls the trap with the proxy itself as the
    receiver, so a read that the code of a provider makes through [this]
    is [proxy.q] again, one call deeper. [stack] is the number of reads
    that may still nest; with none left the runtime raises its
    [RangeError]. *)
Fixpoint read (proxy : Proxy) (stack : nat) (p : string) (w : world)
  {struct stack} : proxied * world :=
  match stack with
  | 0 => (PThrow RangeError_stack, w)
  | S stack' => proxy_get proxy p (read proxy stack') w
  end.

(** [if (typeof property === 'function') return property.apply(this, args);
    return property], applied to the completion of [_proxy]. The closures
    are arrow functions, so the [this] given to [apply] plays no part. *)
Definition resume (r : proxied * world) (args : list value) : called * world :=
  match r with
  | (PFunction property, w) => property args w
  | (PValue property, w) => (Returned property, w)
  | (PThrow er, w) => (Threw er, w)
  end.

(** One access through the proxy: the member is read, and called with
    [args] when it is a function (a member that is not a function is the
    result of the access as it is). *)
Definition access (proxy : Proxy) (stack : nat) (p : string)
  (args : list value) (w : world) : called * world :=
  resume (read proxy stack p w) args.

(** Registering several providers in order, as the chained
    [.addProvider(a).addProvider(b)] does. *)
Fixpoint addProviders (providers : list Provider) (this : FailoverProvider)
  (rnd : random) : completion FailoverProvider * random :=
  match providers with
  | [] => (Normal this, rnd)
  | provider :: rest =>
      match addProvider provider this rnd with
      | (Normal this, rnd) => addProviders rest this rnd
      | (Throw er, rnd) => (Throw er, rnd)
      end
  end.

(** ** Reading results and logs *)

(** The value a caller ends up with, directly or through [await]. *)
Definition result_value (c : called) : option value :=
  match c with
  | Returned re => Some re
  | Promised (Fulfilled re) => Some re
  | _ => None
  end.

(** The error a caller ends up with, thrown or as a rejection. *)
Definition result_error (c : called) : option value :=
  match c with
  | Threw er => Some er
  | Promised (Rejected er) => Some er
  | _ => None
  end.


(** What the code of a member gives when every read it makes through
    [this] is of a data property of the provider itself, which is how the
    reads are answered while the provider is the active one: a read of a
    data property returns at once. [None] when some read is of an accessor
    or of a member that throws, for then the read is an access that may
    fail over. *)
Fixpoint answers (pv : Provider) (a : accessor) {struct a} : option lookup :=
  match a with
  | Gives l => Some l
  | ReadsThis q k =>
      match member pv q with
      | Gives (GetValue v) => answers pv (k (SeenValue v))
      | Gives (GetFunction _) => answers pv (k SeenFunction)
      | _ => None
      end
  end.

(** The members read through [this] on the way, most recent first. *)
Fixpoint reads (pv : Provider) (a : accessor) {struct a} : list string :=
  match a with
  | Gives _ => []
  | ReadsThis q k =>
      match member pv q with
      | Gives (GetValue v) => reads pv (k (SeenValue v)) ++ [q]
      | Gives (GetFunction _) => reads pv (k SeenFunction) ++ [q]
      | _ => []
      end
  end.

Definition lookup_of (pv : Provider) (p : string) : option lookup :=
  answers pv (member pv p).

(** The requests of one attempt on [target] for [p], before any call: the
    [Reflect.get] for [p], then those for the data properties its accessor
    reads through [this]. *)
Definition trail (target : ProviderProxy) (p : string) : list event :=
  map (EGet target) (reads (provider target) (member (provider target) p))
  ++ [EGet target p].

(** The member [p] of a provider fails with [er] when it is asked with
    [args]: its getter throws, the method throws, or the promise of the
    method rejects. *)
Definition fails_with (pv : Provider) (p : string) (args : list value)
  (er : value) : Prop :=
  match lookup_of pv p with
  | Some (GetThrows er') => er' = er
  | Some (GetFunction prop) =>
      prop args = Throws er \/ prop args = Thenable (Rejects er)
  | _ => False
  end.

(** The member [p] of a provider gives [re]: it is a member with that
    value, or a method that returns it, or one whose promise resolves to
    it. *)
Definition succeeds_with (pv : Provider) (p : string) (args : list value)
  (re : value) : Prop :=
  match lookup_of pv p with
  | Some (GetValue prop) => prop = re
  | Some (GetFunction prop) =>
      prop args = Returns re \/ prop args = Thenable (Resolves re)
  | _ => False
  end.


(** Every registered provider has a member [p] that reads nothing through
    [this] but data properties. *)
Definition quiet_on (this : FailoverProvider) (p : string) : Prop :=
  Forall (fun entry => lookup_of (provider entry) p <> None) (_providers this).




(** One [Reflect.get] for the member [p]. *)
Definition is_attempt_on (p : string) (ev : event) : bool :=
  match ev with
  | EGet _ q => String.eqb q p
  | EApply _ _ _ => false
  end.

(** The number of times a provider was asked for the member [p]. *)
Definition asked (p : string) (evs : list event) : nat :=
  List.length (filter (is_attempt_on p) evs).

(** The requests that are for the member [p], reads and calls. *)
Definition concerns (p : string) (ev : event) : bool :=
  match ev with
  | EGet _ q => String.eqb q p
  | EApply _ q _ => String.eqb q p
  end.

Definition requests (p : string) (evs : list event) : list event :=
  filter (concerns p) evs.

Definition is_call (ev : event) : bool :=
  match ev with
  | EGet _ _ => false
  | EApply _ _ _ => true
  end.

(** The number of calls of a method. *)
Definition calls (evs : list event) : nat :=
  List.length (filter is_call evs).

(** The arguments handed to a provider's method. *)
Definition applied_with (args : list value) (ev : event) : Prop :=
  match ev with
  | EGet _ _ => True
  | EApply _ _ args' => args' = args
  end.


(** The entries asked for [p], in the order they were asked (the log has
    the most recent request first). *)
Definition attempted (p : string) (evs : list event) : list ProviderProxy :=
  flat_map (fun ev => match ev with
                      | EGet target q => if String.eqb q p then [target] else []
                      | EApply _ _ _ => []
                      end) (rev evs).

(** ** The registry invariant and what dispatch may change *)

(** The active index is an index of the sequence, or still [0] while the
    sequence is empty. *)
Definition active_in_range (this : FailoverProvider) : Prop :=
  _activeProvider this = 0
  \/ _activeProvider this < List.length (_providers this).

(** [w'] differs from [w] by the active index at most, which stays in
    range if it was, and by requests added to the log. *)
Record advances (w w' : world) : Prop := {
  same_retries : _retries (self w') = _retries (self w);
  same_shouldRetryOn : _shouldRetryOn (self w') = _shouldRetryOn (self w);
  same_providers : _providers (self w') = _providers (self w);
  keeps_range : active_in_range (self w) -> active_in_range (self w');
  extends_log : exists evs, log w' = evs ++ log w
}.

(** A result all of whose pending reactions only advance the world,
    whenever they run. *)
Inductive called_sound : called -> Prop :=
| sound_Returned re : called_sound (Returned re)
| sound_Threw er : called_sound (Threw er)
| sound_Fulfilled re : called_sound (Promised (Fulfilled re))
| sound_Rejected er : called_sound (Promised (Rejected er))
| sound_Pending : called_sound (Promised Pending)
| sound_Reaction job :
    (forall w, advances w (snd (job w))) ->
    (forall w, called_sound (fst (job w))) ->
    called_sound (Promised (Reaction job)).

Definition proxied_sound (r : proxied) : Prop :=
  match r with
  | PFunction f =>
      forall args w, advances w (snd (f args w)) /\ called_sound (fst (f args w))
  | _ => True
  end.

(** A receiver whose reads only advance the world, and so does what they
    return. *)
Definition reader_sound (receiver : proxy_reader) : Prop :=
  forall q w,
    advances w (snd (receiver q w)) /\ proxied_sound (fst (receiver q w)).

(** [_proxy] with the given budget only advances the world, and so does
    whatever it returns. *)
Definition proxy_sound_at (retries : nat) : Prop :=
  forall receiver, reader_sound receiver ->
  forall target p w,
    advances w (snd (_proxy retries target p receiver w))
    /\ proxied_sound (fst (_proxy retries target p receiver w)).

(** The states of the instance in any run of a program that uses the
    class: built by the constructor, then any sequence of registrations,
    reads through the proxy (with all the reads the code of the providers
    nests in them), calls of closures the proxy returned and reactions of
    their promises, in any order. Closures and reactions are taken with
    any captured variables and at any time, which covers every
    interleaving of calls in flight; [_switch] is a step of its own as
    well. *)
Inductive reachable : world -> Prop :=
| reach_constructor config :
    reachable {| self := constructor config; log := [] |}
| reach_addProvider w provider rnd this' rnd' :
    reachable w ->
    addProvider provider (self w) rnd = (Normal this', rnd') ->
    reachable (with_self w this')
| reach_read w proxy stack p :
    reachable w ->
    initialize (self w) = Normal proxy ->
    reachable (snd (read proxy stack p w))
| reach_closure w proxy stack retries target p prop args :
    reachable w ->
    initialize (self w) = Normal proxy ->
    reachable (snd (closure retries target p (read proxy stack) prop args w))
| reach_reaction w proxy stack retries target p args er :
    reachable w ->
    initialize (self w) = Normal proxy ->
    reachable (snd (on_failure retries target p (read proxy stack) args er w))
| reach_switch w failedProvider :
    reachable w ->
    reachable (snd (_switch failedProvider w)).

(** The index [_switch] leaves behind. *)
Definition next_active (failedProvider current : ProviderProxy)
  (this : FailoverProvider) : nat :=
  if String.eqb (id failedProvider) (id current)
  then (_activeProvider this + 1) mod List.length (_providers this)
  else _activeProvider this.

(** A result seen through a promise: [return] fulfils it, [throw] rejects
    it, a promise is followed. *)
Definition promisify (r : called * world) : called * world :=
  match r with
  | (Returned re, w) => (Promised (Fulfilled re), w)
  | (Threw er, w) => (Promised (Rejected er), w)
  | (Promised pr, w) => (Promised pr, w)
  end.

(** One access served to its end with nothing else in between, written as
    the single loop that [_proxy], its closure and the reactions amount to.
    It is a device for the proofs: [await_resume_proxy] below shows that it
    is what the code computes. *)
Fixpoint serve (retries : nat) (target : ProviderProxy) (p : string)
  (receiver : proxy_reader) (args : list value) (w : world)
  {struct retries} : called * world :=
  let failover (er : value) (w : world) : called * world :=
    match retries with
    | 0 => (Threw er, w)
    | S retries' =>
        if negb (_shouldRetryOn (self w) er) then (Threw er, w)
        else
          match _switch target w with
          | (Throw er', w) => (Threw er', w)
          | (Normal provider, w) => serve retries' provider p receiver args w
          end
    end in
  let w := record (EGet target p) w in
  match Reflect_get (provider target) p receiver w with
  | (GetValue prop, w) => (Returned prop, w)
  | (GetThrows er, w) => failover er w
  | (GetFunction prop, w) =>
      let w := record (EApply target p args) w in
      match prop args with
      | Returns re => (Returned re, w)
      | Throws er => failover er w
      | Thenable (Resolves re) => (Promised (Fulfilled re), w)
      | Thenable (Rejects er) => promisify (failover er w)
      | Thenable NeverSettles => (Promised Pending, w)
      | Unchainable er => (Threw er, w)
      end
  end.

(** The failure branch of [serve]. *)
Definition failover (retries : nat) (target : ProviderProxy) (p : string)
  (receiver : proxy_reader) (args : list value) (er : value) (w : world)
  : called * world :=
  match retries with
  | 0 => (Threw er, w)
  | S retries' =>
      if negb (_shouldRetryOn (self w) er) then (Threw er, w)
      else
        match _switch target w with
        | (Throw er', w) => (Threw er', w)
        | (Normal provider, w) => serve retries' provider p receiver args w
        end
  end.

(** A receiver that answers the read of a data property of the active
    provider at once: one [Reflect.get], the instance untouched. The proxy
    is one ([read_plain] below). *)
Definition plain_reader (receiver : proxy_reader) : Prop :=
  forall q w target,
    nth_error (_providers (self w)) (_activeProvider (self w)) = Some target ->
    match member (provider target) q with
    | Gives (GetValue v) => receiver q w = (PValue v, record (EGet target q) w)
    | Gives (GetFunction prop) =>
        exists f, receiver q w = (PFunction f, record (EGet target q) w)
    | _ => True
    end.

(** The entry [i] positions after the active one, round the sequence. *)
Definition entry_after (this : FailoverProvider) (i : nat) : option ProviderProxy :=
  nth_error (_providers this)
    ((_activeProvider this + i) mod List.length (_providers this)).

(** The instance with the active index moved [k] positions on. *)
Definition moved_on (this : FailoverProvider) (k : nat) : FailoverProvider :=
  set_activeProvider this
    ((_activeProvider this + k) mod List.length (_providers this)).

(** The result [r] of an access for [p] started in [w] shows [v] under
    [obs] (its value, or its error), leaves the instance [this'], and has
    asked [n] providers for [p] since [w], every method receiving [args]. *)
Definition served (p : string) (args : list value)
  (obs : called -> option value) (v : value) (n : nat)
  (this' : FailoverProvider) (w : world) (r : called * world) : Prop :=
  obs (fst r) = Some v
  /\ self (snd r) = this'
  /\ exists evs,
       log (snd r) = evs ++ log w
       /\ Forall (applied_with args) evs
       /\ asked p evs = n.


(** ** Further readings of identifiers, logs and results *)

(** Every number the source gives is at least 0 and below 1, as
    [Math.random()] promises. *)
Definition in_unit_interval (rnd : random) : Prop :=
  forall n, (0 <= rnd n)%Q /\ (rnd n < 1)%Q.

(** A decimal digit. *)
Definition is_digit (c : ascii) : bool :=
  (48 <=? nat_of_ascii c) && (nat_of_ascii c <=? 57).

Fixpoint all_digits (s : string) : bool :=
  match s with
  | EmptyString => true
  | String c s' => is_digit c && all_digits s'
  end.

(** The result is a promise the engine has chained. *)
Definition is_promise (c : called) : Prop :=
  match c with
  | Promised _ => True
  | _ => False
  end.

(** The request is a call of a method that returned a promise. *)
Definition returned_thenable (ev : event) : Prop :=
  match ev with
  | EGet _ _ => False
  | EApply target p args =>
      exists prop s,
        lookup_of (provider target) p = Some (GetFunction prop)
        /\ prop args = Thenable s
  end.

(** [s] has [sub] somewhere in it. *)
Fixpoint contains (sub s : string) {struct s} : bool :=
  String.prefix sub s
  || match s with
     | EmptyString => false
     | String _ s' => contains sub s'
     end.

(** The policy of the tests of [shouldRetryOn]: an [Error] whose message
    matches [/cockroach/] is not retried, anything else is. *)
Definition retry_unless_cockroach (error : value) : bool :=
  match error with
  | VError _ message => negb (contains "cockroach" message)
  | _ => true
  end.

(** ** The providers of the test suite *)

Module Mock.

(** [return this.q], for a member [q] that holds no function: what the
    read gave, or threw. (Handing on a function is outside the model; no
    fixture keeps one in a member that is read this way.) *)
Definition hands_on (s : seen) : accessor :=
  match s with
  | SeenThrow er => Gives (GetThrows er)
  | SeenValue v => Gives (GetValue v)
  | SeenFunction => Gives (GetValue VUndefined)
  end.

(** [class Animal]: the data properties [name], [sound], [pace], the
    accessors [NAME] and [SOUND], which return [this.name] and
    [this.sound], and the arrow functions [syncSpeak] and [speak]. *)
Definition Animal (name sound : string) (pace : Z) : Provider :=
  {| member := fun p =>
       if String.eqb p "name" then Gives (GetValue (VString name))
       else if String.eqb p "sound" then Gives (GetValue (VString sound))
       else if String.eqb p "pace" then Gives (GetValue (VNumber pace))
       else if String.eqb p "NAME" then ReadsThis "name" hands_on
       else if String.eqb p "SOUND" then ReadsThis "sound" hands_on
       else if String.eqb p "syncSpeak" then
         Gives (GetFunction (fun _ => Returns (VString sound)))
       else if String.eqb p "speak" then
         Gives (GetFunction (fun _ => Thenable (Resolves (VString sound))))
       else Gives (GetValue VUndefined) |}.

Definition Cat : Provider := Animal "Cat" "meow" 300.
Definition Dog : Provider := Animal "Dog" "woof" 300.

Definition no_sound : value :=
  VError "Error" "A cockroach doesn't have sound.".
Definition no_speech : value :=
  VError "Error" "A cockroach doesn't speak, it flies.".

(** [class Cockroach]: [SOUND], [speak] and [syncSpeak] fail. *)
Definition Cockroach : Provider :=
  {| member := fun p =>
       if String.eqb p "SOUND" then Gives (GetThrows no_sound)
       else if String.eqb p "syncSpeak" then
         Gives (GetFunction (fun _ => Throws no_speech))
       else if String.eqb p "speak" then
         Gives (GetFunction (fun _ => Thenable (Rejects no_speech)))
       else member (Animal "Cockroach" "..." 300) p |}.

(** Not a class of the test suite either: a provider that throws a
    string, which is not an [Error]. *)
Definition Mime : Provider :=
  {| member := fun p =>
       if String.eqb p "syncSpeak" then
         Gives (GetFunction (fun _ => Throws (VString "silence")))
       else member (Animal "Mime" "..." 300) p |}.


(** A source of random numbers that repeats after twelve draws. *)
Definition dozen : random := fun n => (Z.of_nat (n mod 12) # 12)%Q.

(** A source of random numbers that gives different identifiers to the
    first providers registered, the ones of [ids]. *)
Definition spread : random := fun n => (Z.of_nat ((7 * n + 3) mod 10) # 10)%Q.

Definition ids : list string :=
  ["307418529630"; "741852963074"; "185296307418"; "529630741852"].

(** The entries that [addProvider] makes under [spread]. *)
Definition entries (providers : list Provider) : list ProviderProxy :=
  map (fun '(id, provider) => {| id := id; provider := provider; ms := 0 |})
    (combine ids providers).

(** The instance after the constructor and the registrations. *)
Definition factory (config : FailoverProviderConfig)
  (providers : list Provider) : FailoverProvider :=
  {| _retries := _retries (constructor config);
     _shouldRetryOn := _shouldRetryOn (constructor config);
     _activeProvider := 0;
     _providers := entries providers |}.

Definition fresh (config : FailoverProviderConfig)
  (providers : list Provider) : world :=
  {| self := factory config providers; log := [] |}.

End Mock.

(** * Properties *)

(** ** The equations of [_proxy] *)

Lemma _proxy_unfold (retries : nat) (target : ProviderProxy) (p : string)
  (receiver : proxy_reader) (w : world) :
  _proxy retries target p receiver w =
  match Reflect_get (provider target) p receiver (record (EGet target p) w) with
  | (GetValue prop, w1) => (PValue prop, w1)
  | (GetThrows er, w1) =>
      match retries with
      | 0 => (PThrow er, w1)
      | S retries' =>
          if negb (_shouldRetryOn (self w1) er) then (PThrow er, w1)
          else
            match _switch target w1 with
            | (Throw er', w2) => (PThrow er', w2)
            | (Normal provider, w2) => _proxy retries' provider p receiver w2
            end
      end
  | (GetFunction prop, w1) =>
      (PFunction (closure retries target p receiver prop), w1)
  end.
Proof.
  destruct retries; reflexivity.
Qed.

Lemma on_failure_unfold (retries : nat) (target : ProviderProxy) (p : string)
  (receiver : proxy_reader) (args : list value) (er : value) (w : world) :
  on_failure retries target p receiver args er w =
  match retries with
  | 0 => (Threw er, w)
  | S retries' =>
      if negb (_shouldRetryOn (self w) er) then (Threw er, w)
      else
        match _switch target w with
        | (Throw er', w1) => (Threw er', w1)
        | (Normal provider, w1) =>
            resume (_proxy retries' provider p receiver w1) args
        end
  end.
Proof.
  destruct retries as [|retries']; [reflexivity|].
  cbn [on_failure]. destruct (negb _); [reflexivity|].
  destruct (_switch target w) as [[provider|er'] w1]; [|reflexivity].
  unfold resume.
  destruct (_proxy retries' provider p receiver w1) as [[ | | ] ?]; reflexivity.
Qed.

(** ** [_switch] *)

Lemma set_activeProvider_same (this : FailoverProvider) :
  set_activeProvider this (_activeProvider this) = this.
Proof. destruct this; reflexivity. Qed.

Lemma with_self_same (w : world) : with_self w (self w) = w.
Proof. destruct w; reflexivity. Qed.

Lemma next_active_lt (failedProvider current : ProviderProxy)
  (this : FailoverProvider) :
  nth_error (_providers this) (_activeProvider this) = Some current ->
  next_active failedProvider current this < List.length (_providers this).
Proof.
  intros Hcur.
  assert (Hlt : _activeProvider this < List.length (_providers this))
    by (apply nth_error_Some; congruence).
  unfold next_active. destruct (String.eqb _ _); [|exact Hlt].
  apply Nat.mod_upper_bound. lia.
Qed.

Lemma _switch_in_range (failedProvider current : ProviderProxy) (w : world) :
  nth_error (_providers (self w)) (_activeProvider (self w)) = Some current ->
  exists selected,
    nth_error (_providers (self w)) (next_active failedProvider current (self w))
      = Some selected
    /\ _switch failedProvider w
       = (Normal selected,
          with_self w (set_activeProvider (self w)
                         (next_active failedProvider current (self w)))).
Proof.
  intros Hcur.
  pose proof (next_active_lt failedProvider current (self w) Hcur) as Hlt.
  destruct (nth_error (_providers (self w))
              (next_active failedProvider current (self w))) as [selected|] eqn:Hsel;
    [|apply nth_error_None in Hsel; lia].
  exists selected. split; [reflexivity|].
  unfold _switch. rewrite Hcur. unfold next_active in *.
  destruct (String.eqb (id failedProvider) (id current)).
  - cbn [set_activeProvider _providers _activeProvider]. rewrite Hsel. reflexivity.
  - rewrite Hcur. rewrite set_activeProvider_same. congruence.
Qed.

(** ** What dispatch may change *)

Lemma advances_refl (w : world) : advances w w.
Proof.
  split; try reflexivity; [tauto|]. exists []. reflexivity.
Qed.

Lemma advances_trans (w1 w2 w3 : world) :
  advances w1 w2 -> advances w2 w3 -> advances w1 w3.
Proof.
  intros [R1 S1 P1 K1 [evs1 L1]] [R2 S2 P2 K2 [evs2 L2]].
  split; try congruence; [tauto|].
  exists (evs2 ++ evs1). rewrite L2, L1. apply app_assoc.
Qed.

Lemma advances_record (ev : event) (w : world) : advances w (record ev w).
Proof.
  split; try reflexivity; [tauto|]. exists [ev]. reflexivity.
Qed.

Lemma advances_switch (failedProvider : ProviderProxy) (w : world) :
  advances w (snd (_switch failedProvider w)).
Proof.
  destruct (nth_error (_providers (self w)) (_activeProvider (self w)))
    as [current|] eqn:Hcur.
  - destruct (_switch_in_range failedProvider current w Hcur)
      as (selected & _ & ->).
    pose proof (next_active_lt failedProvider current (self w) Hcur) as Hlt.
    split; try reflexivity.
    + intros _. right. exact Hlt.
    + exists []. reflexivity.
  - unfold _switch. rewrite Hcur. apply advances_refl.
Qed.

(** The code of a member changes the world only by its reads through the
    receiver. *)
Lemma run_accessor_sound (receiver : proxy_reader) :
  reader_sound receiver ->
  forall a w, advances w (snd (run_accessor a receiver w)).
Proof.
  intros Hsound a. induction a as [l|q k IH]; intros w; cbn [run_accessor].
  - apply advances_refl.
  - pose proof (proj1 (Hsound q w)) as Hread.
    destruct (receiver q w) as [r w1]. cbn [snd] in Hread.
    eapply advances_trans; [exact Hread|apply IH].
Qed.

Lemma Reflect_get_sound (receiver : proxy_reader) (pv : Provider) (p : string)
  (w : world) :
  reader_sound receiver -> advances w (snd (Reflect_get pv p receiver w)).
Proof.
  intros Hsound. apply run_accessor_sound. exact Hsound.
Qed.

Lemma resume_sound (r : proxied * world) (args : list value) (w : world) :
  advances w (snd r) -> proxied_sound (fst r) ->
  advances w (snd (resume r args)) /\ called_sound (fst (resume r args)).
Proof.
  destruct r as [[er|prop|f] w1]; cbn [fst snd resume]; intros Hadv Hsound.
  - split; [exact Hadv|constructor].
  - split; [exact Hadv|constructor].
  - destruct (Hsound args w1) as [Hf Hc].
    split; [eapply advances_trans; eassumption|exact Hc].
Qed.

Lemma on_failure_sound (retries : nat) (receiver : proxy_reader) :
  reader_sound receiver ->
  (forall retries', retries = S retries' -> proxy_sound_at retries') ->
  forall target p args er w,
    advances w (snd (on_failure retries target p receiver args er w))
    /\ called_sound (fst (on_failure retries target p receiver args er w)).
Proof.
  intros Hreceiver IH target p args er w. rewrite on_failure_unfold.
  destruct retries as [|retries'].
  - split; [apply advances_refl|constructor].
  - destruct (negb _).
    + split; [apply advances_refl|constructor].
    + pose proof (advances_switch target w) as Hsw.
      destruct (_switch target w) as [[provider|er'] w1]; cbn [snd] in Hsw.
      * destruct (IH retries' eq_refl receiver Hreceiver provider p w1)
          as [Hadv Hsound].
        apply resume_sound; [|exact Hsound].
        eapply advances_trans; eassumption.
      * split; [exact Hsw|constructor].
Qed.

Lemma closure_sound (retries : nat) (receiver : proxy_reader) :
  reader_sound receiver ->
  (forall retries', retries = S retries' -> proxy_sound_at retries') ->
  forall target p prop args w,
    advances w (snd (closure retries target p receiver prop args w))
    /\ called_sound (fst (closure retries target p receiver prop args w)).
Proof.
  intros Hreceiver IH target p prop args w. unfold closure.
  pose proof (advances_record (EApply target p args) w) as Hrec.
  set (w0 := record (EApply target p args) w) in *.
  destruct (prop args) as [re|er|[re|er|]|er]; cbn [fst snd].
  - split; [exact Hrec|constructor].
  - destruct (on_failure_sound retries receiver Hreceiver IH target p args er w0)
      as [Hadv Hc].
    split; [eapply advances_trans; eassumption|exact Hc].
  - split; [exact Hrec|constructor].
  - split; [exact Hrec|].
    constructor; intros w'; apply (on_failure_sound retries receiver Hreceiver IH).
  - split; [exact Hrec|constructor].
  - split; [exact Hrec|constructor].
Qed.

Lemma _proxy_sound (retries : nat) : proxy_sound_at retries.
Proof.
  induction retries as [retries IH] using lt_wf_ind.
  assert (IH' : forall retries', retries = S retries' -> proxy_sound_at retries')
    by (intros retries' ->; apply IH; lia).
  intros receiver Hreceiver target p w. rewrite _proxy_unfold.
  pose proof (advances_record (EGet target p) w) as Hrec.
  set (w0 := record (EGet target p) w) in *.
  pose proof (Reflect_get_sound receiver (provider target) p w0 Hreceiver) as Hget.
  destruct (Reflect_get (provider target) p receiver w0) as [l w1].
  cbn [snd] in Hget.
  assert (Hw1 : advances w w1) by (eapply advances_trans; eassumption).
  destruct l as [er|prop|prop].
  - destruct retries as [|retries'].
    + split; [exact Hw1|exact I].
    + destruct (negb _); [split; [exact Hw1|exact I]|].
      pose proof (advances_switch target w1) as Hsw.
      destruct (_switch target w1) as [[provider|er'] w2]; cbn [snd] in Hsw.
      * destruct (IH' retries' eq_refl receiver Hreceiver provider p w2)
          as [Hadv Hsound].
        split; [|exact Hsound].
        eapply advances_trans; [exact Hw1|].
        eapply advances_trans; eassumption.
      * split; [eapply advances_trans; eassumption|exact I].
  - split; [exact Hw1|exact I].
  - split; [exact Hw1|].
    intros args w'. apply (closure_sound retries receiver Hreceiver IH').
Qed.

Lemma get_trap_sound (receiver : proxy_reader) (p : string) (w : world) :
  reader_sound receiver ->
  advances w (snd (get_trap p receiver w))
  /\ proxied_sound (fst (get_trap p receiver w)).
Proof.
  intros Hreceiver. unfold get_trap.
  destruct (nth_error _ _) as [target|].
  - apply _proxy_sound. exact Hreceiver.
  - split; [apply advances_refl|exact I].
Qed.

Lemma initialize_get (this : FailoverProvider) (proxy : Proxy) :
  initialize this = Normal proxy -> proxy_get proxy = get_trap.
Proof.
  unfold initialize. destruct (_providers this) as [|[i pv m] rest];
    [discriminate|].
  intros [= <-]. reflexivity.
Qed.

(** The proxy, read at any depth, is a sound receiver. *)
Lemma read_sound (this : FailoverProvider) (proxy : Proxy) (stack : nat) :
  initialize this = Normal proxy -> reader_sound (read proxy stack).
Proof.
  intros Hinit. induction stack as [|stack IH]; intros q w; cbn [read].
  - split; [apply advances_refl|exact I].
  - rewrite (initialize_get this proxy Hinit). apply get_trap_sound. exact IH.
Qed.


(** ** The closures and reactions of the engine *)

(** Every function [_proxy] returns is a [closure]. *)
Lemma proxy_returns_closure (retries : nat) (receiver : proxy_reader) :
  forall target p w f w',
    _proxy retries target p receiver w = (PFunction f, w') ->
    exists retries' target' prop,
      retries' <= retries /\ f = closure retries' target' p receiver prop.
Proof.
  induction retries as [|retries IH]; intros target p w f w';
    rewrite _proxy_unfold;
    destruct (Reflect_get (provider target) p receiver _) as [[er|prop|prop] w1];
    try discriminate.
  - intros [= <- _]. exists 0, target, prop. split; [lia|reflexivity].
  - destruct (negb _); [discriminate|].
    destruct (_switch target _) as [[provider|er'] w2]; [|discriminate].
    intros H. destruct (IH provider p w2 f w' H) as (r & t & prop & Hr & ->).
    exists r, t, prop. split; [lia|reflexivity].
  - intros [= <- _]. exists (S retries), target, prop. split; [lia|reflexivity].
Qed.

(** Every reaction left pending by a [closure], or by a reaction that has
    run, is an [on_failure] for the same member and arguments. *)
Lemma pending_reaction_is_on_failure (retries : nat) (receiver : proxy_reader) :
  (forall target p args er w job w',
     on_failure retries target p receiver args er w
     = (Promised (Reaction job), w') ->
     exists r t er', job = on_failure r t p receiver args er')
  /\ (forall target p prop args w job w',
        closure retries target p receiver prop args w
        = (Promised (Reaction job), w') ->
        exists r t er', job = on_failure r t p receiver args er').
Proof.
  induction retries as [retries IH] using lt_wf_ind.
  assert (Hfail : forall target p args er w job w',
            on_failure retries target p receiver args er w
            = (Promised (Reaction job), w') ->
            exists r t er', job = on_failure r t p receiver args er').
  { intros target p args er w job w'. rewrite on_failure_unfold.
    destruct retries as [|retries']; [discriminate|].
    destruct (negb _); [discriminate|].
    destruct (_switch target w) as [[provider|er'] w1]; [|discriminate].
    destruct (_proxy retries' provider p receiver w1) as [[er0|v|f] w2] eqn:Hproxy;
      cbn [resume]; try discriminate.
    destruct (proxy_returns_closure retries' receiver provider p w1 f w2 Hproxy)
      as (r & t & prop & Hr & ->).
    apply (proj2 (IH r ltac:(lia))). }
  split; [exact Hfail|].
  intros target p prop args w job w'. unfold closure.
  destruct (prop args) as [re|er|[re|er|]|er]; try discriminate.
  - apply Hfail.
  - intros [= <- _]. exists retries, target, er. reflexivity.
Qed.

(** ** Awaiting *)

Lemma promisify_snd (r : called * world) : snd (promisify r) = snd r.
Proof. destruct r as [[re|er|pr] w]; reflexivity. Qed.


Lemma promisify_value (r : called * world) :
  result_value (fst (promisify r)) = result_value (fst r).
Proof. destruct r as [[re|er|pr] w]; reflexivity. Qed.


Lemma await_Reaction (job : world -> called * world) (w : world) :
  await (Promised (Reaction job), w) = promisify (await (job w)).
Proof.
  cbn [await settle].
  destruct (job w) as [[re|er|pr] w1]; cbn [await promisify]; try reflexivity.
  destruct (settle pr w1) as [pr' w']. reflexivity.
Qed.



(** ** Registration *)

Lemma Number_toString_nonempty (n : Z) : 1 <= String.length (Number_toString n).
Proof.
  unfold Number_toString, NilZero.string_of_int.
  destruct (Z.to_int n) as [d|d].
  - unfold NilZero.string_of_uint. destruct d; cbn; lia.
  - cbn. lia.
Qed.

Lemma String_length_append (s t : string) :
  String.length (s ++ t)%string = String.length s + String.length t.
Proof.
  induction s as [|c s IH]; cbn; [reflexivity|]. rewrite IH. reflexivity.
Qed.

(** The loop of [uid] leaves on its test, not for want of turns. *)
Lemma uid_loop_length (turns len : nat) :
  forall id rnd,
    len <= String.length id + turns ->
    len <= String.length (fst (uid_loop turns len id rnd)).
Proof.
  induction turns as [|turns IH]; intros id rnd Hlen; cbn [uid_loop].
  - destruct (String.length id <? len) eqn:Hlt; cbn [fst].
    + apply Nat.ltb_lt in Hlt. lia.
    + apply Nat.ltb_ge in Hlt. exact Hlt.
  - destruct (String.length id <? len) eqn:Hlt.
    + cbn [Math_random]. apply IH.
      rewrite String_length_append.
      pose proof (Number_toString_nonempty (Math_round (rnd 0%nat * 10)%Q)). lia.
    + apply Nat.ltb_ge in Hlt. exact Hlt.
Qed.

Lemma addProvider_appends (provider : Provider) (this : FailoverProvider)
  (rnd : random) :
  exists id rnd',
    12 <= String.length id
    /\ addProvider provider this rnd =
       (Normal {| _retries := _retries this;
                  _shouldRetryOn := _shouldRetryOn this;
                  _activeProvider := _activeProvider this;
                  _providers :=
                    _providers this
                    ++ [ {| id := id; provider := provider; ms := 0 |} ] |},
        rnd').
Proof.
  unfold addProvider, uid. cbn [Nat.ltb Nat.leb orb].
  pose proof (uid_loop_length 12 12 "" rnd) as Hlen.
  destruct (uid_loop 12 12 "" rnd) as [id rnd'].
  exists id, rnd'. split; [apply Hlen; cbn; lia|reflexivity].
Qed.

(** ** The registry invariant *)

Lemma reachable_advances_from (w : world) (proxy : Proxy) :
  initialize (self w) = Normal proxy ->
  (forall stack p, advances w (snd (read proxy stack p w)))
  /\ (forall stack retries target p prop args,
        advances w (snd (closure retries target p (read proxy stack) prop args w)))
  /\ (forall stack retries target p args er,
        advances w
          (snd (on_failure retries target p (read proxy stack) args er w))).
Proof.
  intros Hinit. split; [|split].
  - intros stack p. apply (read_sound (self w) proxy stack Hinit).
  - intros stack retries target p prop args.
    apply (closure_sound retries (read proxy stack)
             (read_sound (self w) proxy stack Hinit)
             (fun r _ => _proxy_sound r)).
  - intros stack retries target p args er.
    apply (on_failure_sound retries (read proxy stack)
             (read_sound (self w) proxy stack Hinit)
             (fun r _ => _proxy_sound r)).
Qed.

Lemma reachable_active_in_range (w : world) :
  reachable w -> active_in_range (self w).
Proof.
  induction 1 as [config
                 |w provider rnd this' rnd' Hw IH Hadd
                 |w proxy stack p Hw IH Hinit
                 |w proxy stack retries target p prop args Hw IH Hinit
                 |w proxy stack retries target p args er Hw IH Hinit
                 |w failedProvider Hw IH].
  - left. reflexivity.
  - destruct (addProvider_appends provider (self w) rnd) as (i & rnd0 & _ & Heq).
    rewrite Heq in Hadd. injection Hadd as <- _.
    cbn. unfold active_in_range in *. cbn. rewrite length_app. cbn. lia.
  - apply (keeps_range _ _ (proj1 (reachable_advances_from w proxy Hinit) stack p)).
    exact IH.
  - apply (keeps_range _ _
             (proj1 (proj2 (reachable_advances_from w proxy Hinit))
                stack retries target p prop args)).
    exact IH.
  - apply (keeps_range _ _
             (proj2 (proj2 (reachable_advances_from w proxy Hinit))
                stack retries target p args er)).
    exact IH.
  - apply (keeps_range _ _ (advances_switch failedProvider w)). exact IH.
Qed.

(** ** Members that read only data properties *)

Lemma reads_are_data (pv : Provider) (a : accessor) (q : string) :
  In q (reads pv a) -> exists l, member pv q = Gives l.
Proof.
  induction a as [l|q0 k IH]; cbn [reads]; [intros []|].
  destruct (member pv q0) as [[er|v|prop]|q1 k1] eqn:Hm; try (intros []);
    intros Hin; apply in_app_or in Hin;
    (destruct Hin as [Hin|[<-|[]]]; [eapply IH; exact Hin|eexists; exact Hm]).
Qed.

(** A member is not among the members its own code reads as data. *)
Lemma own_read_absent (pv : Provider) (p : string) :
  ~ In p (reads pv (member pv p)).
Proof.
  intros Hin. destruct (reads_are_data pv _ p Hin) as (l & Hl).
  rewrite Hl in Hin. exact Hin.
Qed.

Lemma run_accessor_quiet (receiver : proxy_reader) (target : ProviderProxy) :
  plain_reader receiver ->
  forall a l w,
    nth_error (_providers (self w)) (_activeProvider (self w)) = Some target ->
    answers (provider target) a = Some l ->
    exists w1,
      run_accessor a receiver w = (l, w1)
      /\ self w1 = self w
      /\ log w1 = map (EGet target) (reads (provider target) a) ++ log w.
Proof.
  intros Hplain a. induction a as [l0|q k IH]; intros l w Htarget Hans.
  - cbn in *. injection Hans as <-. exists w. repeat split.
  - cbn [answers reads run_accessor] in *.
    pose proof (Hplain q w target Htarget) as Hq.
    destruct (member (provider target) q) as [[er|v|prop]|q1 k1] eqn:Hm;
      try discriminate.
    + rewrite Hq.
      destruct (IH (SeenValue v) l (record (EGet target q) w) Htarget Hans)
        as (w1 & Hrun & Hs & Hlog).
      exists w1. cbn [see]. split; [exact Hrun|]. split; [exact Hs|].
      rewrite Hlog. cbn [record log]. rewrite map_app, <- app_assoc. reflexivity.
    + destruct Hq as (f & Hq). rewrite Hq.
      destruct (IH SeenFunction l (record (EGet target q) w) Htarget Hans)
        as (w1 & Hrun & Hs & Hlog).
      exists w1. cbn [see]. split; [exact Hrun|]. split; [exact Hs|].
      rewrite Hlog. cbn [record log]. rewrite map_app, <- app_assoc. reflexivity.
Qed.

(** On the active provider, a member that reads only data properties
    gives what [lookup_of] says, by the requests of [trail], and leaves the
    instance as it was. *)
Lemma Reflect_get_quiet (receiver : proxy_reader) (target : ProviderProxy)
  (p : string) (l : lookup) (w : world) :
  plain_reader receiver ->
  nth_error (_providers (self w)) (_activeProvider (self w)) = Some target ->
  lookup_of (provider target) p = Some l ->
  exists w1,
    Reflect_get (provider target) p receiver (record (EGet target p) w) = (l, w1)
    /\ self w1 = self w
    /\ log w1 = trail target p ++ log w.
Proof.
  intros Hplain Htarget Hl.
  destruct (run_accessor_quiet receiver target Hplain _ l
              (record (EGet target p) w) Htarget Hl) as (w1 & Hrun & Hs & Hlog).
  exists w1. split; [exact Hrun|]. split; [exact Hs|].
  rewrite Hlog. unfold trail. cbn [record log]. rewrite <- app_assoc. reflexivity.
Qed.

(** The proxy answers the read of a data property at once. *)
Lemma read_plain (proxy : Proxy) (stack : nat) :
  proxy_get proxy = get_trap -> plain_reader (read proxy (S stack)).
Proof.
  intros Hget q w target Htarget. cbn [read]. rewrite Hget.
  unfold get_trap. rewrite Htarget. rewrite _proxy_unfold. unfold Reflect_get.
  destruct (member (provider target) q) as [[er|v|prop]|q1 k1];
    cbn [run_accessor]; auto.
  eexists. reflexivity.
Qed.

(** ** Counting requests *)

Lemma asked_app (p : string) (evs evs' : list event) :
  asked p (evs ++ evs') = asked p evs + asked p evs'.
Proof.
  unfold asked. rewrite filter_app, length_app. reflexivity.
Qed.

Lemma calls_app (evs evs' : list event) :
  calls (evs ++ evs') = calls evs + calls evs'.
Proof.
  unfold calls. rewrite filter_app, length_app. reflexivity.
Qed.

Lemma requests_app (p : string) (evs evs' : list event) :
  requests p (evs ++ evs') = requests p evs ++ requests p evs'.
Proof.
  apply filter_app.
Qed.

Lemma reads_of_others (target : ProviderProxy) (p : string) (names : list string) :
  ~ In p names ->
  asked p (map (EGet target) names) = 0
  /\ requests p (map (EGet target) names) = []
  /\ calls (map (EGet target) names) = 0.
Proof.
  induction names as [|q names IH]; intros Hnot; [repeat split|].
  assert (Hq : String.eqb q p = false).
  { apply String.eqb_neq. intros ->. apply Hnot. left. reflexivity. }
  destruct IH as (Ha & Hr & Hc); [intros Hin; apply Hnot; right; exact Hin|].
  unfold asked, requests, calls in *. cbn. rewrite Hq. auto.
Qed.

(** One attempt asks for the member once. *)
Lemma trail_counts (target : ProviderProxy) (p : string) :
  asked p (trail target p) = 1
  /\ requests p (trail target p) = [EGet target p]
  /\ calls (trail target p) = 0.
Proof.
  destruct (reads_of_others target p _ (own_read_absent (provider target) p))
    as (Ha & Hr & Hc).
  unfold trail. rewrite asked_app, requests_app, calls_app, Ha, Hr, Hc.
  unfold asked, requests, calls. cbn. rewrite String.eqb_refl. auto.
Qed.

Lemma attempted_app (p : string) (evs evs' : list event) :
  attempted p (evs ++ evs') = attempted p evs' ++ attempted p evs.
Proof.
  unfold attempted. rewrite rev_app_distr, flat_map_app. reflexivity.
Qed.

Lemma attempted_others (target : ProviderProxy) (p : string)
  (names : list string) :
  ~ In p names -> attempted p (map (EGet target) names) = [].
Proof.
  induction names as [|q names IH]; intros Hnot; [reflexivity|].
  change (map (EGet target) (q :: names))
    with ([EGet target q] ++ map (EGet target) names).
  rewrite attempted_app, IH by (intros Hin; apply Hnot; right; exact Hin).
  unfold attempted. cbn.
  destruct (String.eqb_spec q p) as [->|Hq]; [|reflexivity].
  exfalso. apply Hnot. left. reflexivity.
Qed.

(** One attempt asks one entry for the member. *)
Lemma attempted_trail (target : ProviderProxy) (p : string) :
  attempted p (trail target p) = [target].
Proof.
  unfold trail. rewrite attempted_app.
  rewrite (attempted_others target p _ (own_read_absent (provider target) p)).
  unfold attempted. cbn. rewrite String.eqb_refl. reflexivity.
Qed.

Lemma attempted_call (target : ProviderProxy) (p : string)
  (args : list value) (evs : list event) :
  attempted p (EApply target p args :: evs) = attempted p evs.
Proof.
  change (EApply target p args :: evs) with ([EApply target p args] ++ evs).
  rewrite attempted_app. unfold attempted. cbn. apply app_nil_r.
Qed.

Lemma trail_applied (args : list value) (target : ProviderProxy) (p : string) :
  Forall (applied_with args) (trail target p).
Proof.
  unfold trail. apply Forall_app. split.
  - apply Forall_forall. intros ev Hin. apply in_map_iff in Hin.
    destruct Hin as (q & <- & _). exact I.
  - constructor; [exact I|constructor].
Qed.

(** ** One access, served to its end *)

Lemma serve_unfold (retries : nat) (target : ProviderProxy) (p : string)
  (receiver : proxy_reader) (args : list value) (w : world) :
  serve retries target p receiver args w =
  match Reflect_get (provider target) p receiver (record (EGet target p) w) with
  | (GetValue prop, w1) => (Returned prop, w1)
  | (GetThrows er, w1) => failover retries target p receiver args er w1
  | (GetFunction prop, w1) =>
      let w2 := record (EApply target p args) w1 in
      match prop args with
      | Returns re => (Returned re, w2)
      | Throws er => failover retries target p receiver args er w2
      | Thenable (Resolves re) => (Promised (Fulfilled re), w2)
      | Thenable (Rejects er) =>
          promisify (failover retries target p receiver args er w2)
      | Thenable NeverSettles => (Promised Pending, w2)
      | Unchainable er => (Threw er, w2)
      end
  end.
Proof.
  destruct retries; reflexivity.
Qed.

Lemma await_on_failure (retries : nat) (receiver : proxy_reader) :
  (forall retries', retries = S retries' ->
     forall target p args w,
       await (resume (_proxy retries' target p receiver w) args)
       = serve retries' target p receiver args w) ->
  forall target p args er w,
    await (on_failure retries target p receiver args er w)
    = failover retries target p receiver args er w.
Proof.
  intros IH target p args er w. rewrite on_failure_unfold. unfold failover.
  destruct retries as [|retries']; [reflexivity|].
  destruct (negb _); [reflexivity|].
  destruct (_switch target w) as [[provider|er'] w1]; [|reflexivity].
  apply (IH retries' eq_refl).
Qed.

(** The code, awaited, computes [serve]. *)
Lemma await_resume_proxy (receiver : proxy_reader) (retries : nat) :
  forall target p args w,
    await (resume (_proxy retries target p receiver w) args)
    = serve retries target p receiver args w.
Proof.
  induction retries as [retries IH] using lt_wf_ind.
  assert (IH' : forall retries', retries = S retries' ->
            forall target p args w,
              await (resume (_proxy retries' target p receiver w) args)
              = serve retries' target p receiver args w)
    by (intros retries' ->; apply IH; lia).
  intros target p args w. rewrite _proxy_unfold, serve_unfold.
  destruct (Reflect_get (provider target) p receiver (record (EGet target p) w))
    as [[er|prop|prop] w1].
  - unfold failover. destruct retries as [|retries']; [reflexivity|].
    destruct (negb _); [reflexivity|].
    destruct (_switch target w1) as [[provider|er'] w2]; [|reflexivity].
    apply (IH' retries' eq_refl).
  - reflexivity.
  - cbn [resume]. unfold closure. cbv zeta.
    set (w2 := record (EApply target p args) w1).
    destruct (prop args) as [re|er|[re|er|]|er]; try reflexivity.
    + apply (await_on_failure retries receiver IH').
    + rewrite await_Reaction. f_equal. apply (await_on_failure retries receiver IH').
Qed.

Lemma await_access_serve (this : FailoverProvider) (proxy : Proxy)
  (stack : nat) (target : ProviderProxy) (p : string) (args : list value)
  (w : world) :
  initialize this = Normal proxy ->
  nth_error (_providers (self w)) (_activeProvider (self w)) = Some target ->
  await (access proxy (S stack) p args w)
  = serve (_retries (self w)) target p (read proxy stack) args w.
Proof.
  intros Hinit Htarget. unfold access. cbn [read].
  rewrite (initialize_get this proxy Hinit). unfold get_trap. rewrite Htarget.
  apply await_resume_proxy.
Qed.

(** [serve] on the active entry, for a member that reads only data
    properties. *)
Lemma serve_quiet (retries : nat) (target : ProviderProxy) (p : string)
  (receiver : proxy_reader) (args : list value) (l : lookup) (w : world) :
  plain_reader receiver ->
  nth_error (_providers (self w)) (_activeProvider (self w)) = Some target ->
  lookup_of (provider target) p = Some l ->
  exists w1,
    self w1 = self w
    /\ log w1 = trail target p ++ log w
    /\ serve retries target p receiver args w =
       match l with
       | GetValue prop => (Returned prop, w1)
       | GetThrows er => failover retries target p receiver args er w1
       | GetFunction prop =>
           let w2 := record (EApply target p args) w1 in
           match prop args with
           | Returns re => (Returned re, w2)
           | Throws er => failover retries target p receiver args er w2
           | Thenable (Resolves re) => (Promised (Fulfilled re), w2)
           | Thenable (Rejects er) =>
               promisify (failover retries target p receiver args er w2)
           | Thenable NeverSettles => (Promised Pending, w2)
           | Unchainable er => (Threw er, w2)
           end
       end.
Proof.
  intros Hplain Htarget Hl.
  destruct (Reflect_get_quiet receiver target p l w Hplain Htarget Hl)
    as (w1 & Hget & Hs & Hlog).
  exists w1. split; [exact Hs|]. split; [exact Hlog|].
  rewrite serve_unfold, Hget. destruct l; reflexivity.
Qed.

(** ** Failing over to the first provider that answers *)

Lemma entry_after_0 (this : FailoverProvider) (target : ProviderProxy) :
  nth_error (_providers this) (_activeProvider this) = Some target ->
  entry_after this 0 = Some target.
Proof.
  intros Htarget. unfold entry_after.
  rewrite Nat.add_0_r, Nat.mod_small; [exact Htarget|].
  apply nth_error_Some. congruence.
Qed.

Lemma moved_on_0 (this : FailoverProvider) (target : ProviderProxy) :
  nth_error (_providers this) (_activeProvider this) = Some target ->
  moved_on this 0 = this.
Proof.
  intros Htarget. unfold moved_on.
  rewrite Nat.add_0_r, Nat.mod_small; [apply set_activeProvider_same|].
  apply nth_error_Some. congruence.
Qed.

Lemma entry_after_moved_on (this : FailoverProvider) (i : nat) :
  entry_after (moved_on this 1) i = entry_after this (S i).
Proof.
  unfold entry_after, moved_on. cbn [set_activeProvider _providers _activeProvider].
  rewrite Nat.Div0.add_mod_idemp_l. do 2 f_equal. lia.
Qed.

Lemma moved_on_moved_on (this : FailoverProvider) (k : nat) :
  moved_on (moved_on this 1) k = moved_on this (S k).
Proof.
  unfold moved_on. cbn [set_activeProvider _providers _activeProvider _retries _shouldRetryOn].
  rewrite Nat.Div0.add_mod_idemp_l. unfold set_activeProvider. do 2 f_equal. lia.
Qed.

(** A retryable failure of the active entry moves one position on and
    serves the access again, with one retry less. *)
Lemma failover_step (retries' : nat) (target : ProviderProxy) (p : string)
  (receiver : proxy_reader) (args : list value) (er : value) (w : world) :
  nth_error (_providers (self w)) (_activeProvider (self w)) = Some target ->
  _shouldRetryOn (self w) er = true ->
  exists selected,
    entry_after (self w) 1 = Some selected
    /\ failover (S retries') target p receiver args er w
       = serve retries' selected p receiver args
           (with_self w (moved_on (self w) 1)).
Proof.
  intros Htarget Hretry.
  destruct (_switch_in_range target target w Htarget) as (selected & Hsel & Hsw).
  unfold next_active in *. rewrite String.eqb_refl in *.
  exists selected. split; [exact Hsel|].
  unfold failover. rewrite Hretry. cbn [negb]. rewrite Hsw. reflexivity.
Qed.

Lemma served_after (p : string) (args : list value)
  (obs : called -> option value) (v : value) (n m : nat)
  (this' : FailoverProvider) (evs0 : list event) (w w1 : world)
  (r : called * world) :
  log w1 = evs0 ++ log w ->
  Forall (applied_with args) evs0 ->
  asked p evs0 = m ->
  served p args obs v n this' w1 r ->
  served p args obs v (m + n) this' w r.
Proof.
  intros Hw1 Hargs0 Hm (Hval & Hself & evs & Hlog & Hargs & Hn).
  split; [exact Hval|]. split; [exact Hself|].
  exists (evs ++ evs0). split; [|split].
  - rewrite Hlog, Hw1. apply app_assoc.
  - apply Forall_app. split; assumption.
  - rewrite asked_app. lia.
Qed.

Lemma served_trail (p : string) (args : list value)
  (obs : called -> option value) (v : value) (n : nat)
  (this' : FailoverProvider) (target : ProviderProxy) (w w1 : world)
  (r : called * world) :
  log w1 = trail target p ++ log w ->
  served p args obs v n this' w1 r ->
  served p args obs v (S n) this' w r.
Proof.
  intros Hw1 H.
  apply (served_after p args obs v n 1 this' (trail target p) w w1 r Hw1);
    [apply trail_applied|apply trail_counts|exact H].
Qed.

Lemma served_apply (p : string) (args : list value)
  (obs : called -> option value) (v : value) (n : nat)
  (this' : FailoverProvider) (target : ProviderProxy) (w : world)
  (r : called * world) :
  served p args obs v n this' (record (EApply target p args) w) r ->
  served p args obs v n this' w r.
Proof.
  intros H.
  apply (served_after p args obs v n 0 this' [EApply target p args] w
           (record (EApply target p args) w) r);
    [reflexivity|constructor; [reflexivity|constructor]|reflexivity|exact H].
Qed.

Lemma served_value_promisify (p : string) (args : list value) (v : value)
  (n : nat) (this' : FailoverProvider) (w : world) (r : called * world) :
  served p args result_value v n this' w r ->
  served p args result_value v n this' w (promisify r).
Proof.
  unfold served. rewrite promisify_value, promisify_snd. tauto.
Qed.


Lemma served_now (p : string) (args : list value)
  (obs : called -> option value) (v : value) (this' : FailoverProvider)
  (w : world) (c : called) :
  obs c = Some v -> self w = this' ->
  served p args obs v 0 this' w (c, w).
Proof.
  intros Hval Hself. split; [exact Hval|]. split; [exact Hself|].
  exists []. repeat split. constructor.
Qed.

Lemma serve_reaches (receiver : proxy_reader) (p : string) (args : list value)
  (re : value) (k : nat) :
  plain_reader receiver ->
  forall retries target w,
    k <= retries ->
    nth_error (_providers (self w)) (_activeProvider (self w)) = Some target ->
    (forall i, i < k ->
       exists entry er,
         entry_after (self w) i = Some entry
         /\ fails_with (provider entry) p args er
         /\ _shouldRetryOn (self w) er = true) ->
    (exists entry,
       entry_after (self w) k = Some entry
       /\ succeeds_with (provider entry) p args re) ->
    served p args result_value re (S k) (moved_on (self w) k) w
      (serve retries target p receiver args w).
Proof.
  intros Hplain.
  induction k as [|k IH]; intros retries target w Hk Htarget Hfail Hsucc.
  - destruct Hsucc as (entry & Hentry & Hsucc).
    rewrite (entry_after_0 _ _ Htarget) in Hentry. injection Hentry as <-.
    rewrite (moved_on_0 _ _ Htarget). unfold succeeds_with in Hsucc.
    destruct (lookup_of (provider target) p) as [l|] eqn:Hl; [|contradiction].
    destruct (serve_quiet retries target p receiver args l w Hplain Htarget Hl)
      as (w1 & Hs & Hlog & ->).
    apply (served_trail p args _ _ _ _ target w w1 _ Hlog).
    destruct l as [er|prop|prop]; [contradiction| |].
    + subst prop. apply served_now; [reflexivity|exact Hs].
    + cbv zeta. apply (served_apply p args _ _ _ _ target).
      destruct Hsucc as [-> | ->]; apply served_now; try reflexivity; exact Hs.
  - destruct retries as [|retries']; [lia|].
    destruct (Hfail 0 ltac:(lia)) as (entry & er & Hentry & Hfails & Hretry).
    rewrite (entry_after_0 _ _ Htarget) in Hentry. injection Hentry as <-.
    assert (Hnext : forall w0, self w0 = self w ->
              served p args result_value re (S k) (moved_on (self w) (S k)) w0
                (failover (S retries') target p receiver args er w0)).
    { intros w0 Hw0.
      destruct (failover_step retries' target p receiver args er w0)
        as (selected & Hsel & ->);
        [rewrite Hw0; exact Htarget|rewrite Hw0; exact Hretry|].
      rewrite Hw0 in *. rewrite <- moved_on_moved_on.
      apply (IH retries' selected (with_self w0 (moved_on (self w) 1)));
        cbn [with_self self].
      - lia.
      - exact Hsel.
      - intros i Hi. destruct (Hfail (S i) ltac:(lia)) as (e' & er' & He' & Hf' & Hr').
        exists e', er'. rewrite entry_after_moved_on. auto.
      - destruct Hsucc as (e' & He' & Hs'). exists e'.
        rewrite entry_after_moved_on. auto. }
    unfold fails_with in Hfails.
    destruct (lookup_of (provider target) p) as [l|] eqn:Hl; [|contradiction].
    destruct (serve_quiet (S retries') target p receiver args l w Hplain Htarget Hl)
      as (w1 & Hs & Hlog & ->).
    apply (served_trail p args _ _ _ _ target w w1 _ Hlog).
    destruct l as [er0|prop|prop]; [|contradiction|].
    + subst er0. apply Hnext. exact Hs.
    + cbv zeta. apply (served_apply p args _ _ _ _ target).
      destruct Hfails as [-> | ->].
      * apply Hnext. exact Hs.
      * apply served_value_promisify. apply Hnext. exact Hs.
Qed.

(** ** Running out of providers or of retries *)



Lemma switched_entry_registered (target current : ProviderProxy) (w : world) :
  nth_error (_providers (self w)) (_activeProvider (self w)) = Some current ->
  exists selected w1,
    _switch target w = (Normal selected, w1)
    /\ nth_error (_providers (self w1)) (_activeProvider (self w1)) = Some selected
    /\ _providers (self w1) = _providers (self w)
    /\ _shouldRetryOn (self w1) = _shouldRetryOn (self w)
    /\ _retries (self w1) = _retries (self w)
    /\ log w1 = log w.
Proof.
  intros Hcur.
  destruct (_switch_in_range target current w Hcur) as (selected & Hsel & Hsw).
  exists selected, (with_self w (set_activeProvider (self w)
                                  (next_active target current (self w)))).
  split; [exact Hsw|]. split; [exact Hsel|]. repeat split.
Qed.


Lemma active_entry (this : FailoverProvider) :
  _activeProvider this < List.length (_providers this) ->
  exists target, nth_error (_providers this) (_activeProvider this) = Some target.
Proof.
  intros Hlt.
  destruct (nth_error (_providers this) (_activeProvider this)) as [target|] eqn:H.
  - exists target. reflexivity.
  - apply nth_error_None in H. lia.
Qed.

(** * The claims of the specification *)

(** ** Failing over to the provider that answers *)




(** ** The bound on the attempts and the error that comes out *)




(** The fixtures are what the code builds. *)
Example mock_factory_registered :
  fst (addProviders [Mock.Cockroach; Mock.Dog; Mock.Cat; Mock.Mime]
         (constructor no_config) Mock.spread)
  = Normal (Mock.factory no_config [Mock.Cockroach; Mock.Dog; Mock.Cat; Mock.Mime]).
Proof. vm_compute. reflexivity. Qed.

(** ** [_switch]: advancing once per failed provider *)

Lemma succ_mod_neq (a n : nat) : a < n -> 2 <= n -> (a + 1) mod n <> a.
Proof.
  intros Ha Hn. destruct (Nat.eq_dec (a + 1) n) as [Heq|Hneq].
  - rewrite Heq, Nat.Div0.mod_same. lia.
  - rewrite Nat.mod_small; lia.
Qed.

Lemma unique_id_same_index (l : list ProviderProxy) (i j : nat)
  (x y : ProviderProxy) :
  NoDup (map id l) ->
  nth_error l i = Some x -> nth_error l j = Some y -> id x = id y -> i = j.
Proof.
  intros Hnd Hi Hj Hid.
  rewrite NoDup_nth_error in Hnd. apply Hnd.
  - rewrite length_map. apply nth_error_Some. congruence.
  - rewrite !nth_error_map, Hi, Hj. cbn. congruence.
Qed.

(** C3, as amended. In a registry with an entry at the active index,
    [_switch] moves the active index one position on, modulo the length,
    when the identifier of the failed entry is that of the entry at the
    active index, and leaves it where it is otherwise; it returns the
    entry at the index it leaves (with two entries or more, the index has
    moved exactly when the identifiers agree). When the identifiers of the
    entries differ from one another, a second notification for the same
    failed entry leaves the index one position on from the start, not two,
    and returns the same entry. *)
Theorem switch_advances_once_per_failed_entry
  (failedProvider current : ProviderProxy) (w : world) :
  nth_error (_providers (self w)) (_activeProvider (self w)) = Some current ->
  let a := _activeProvider (self w) in
  let n := List.length (_providers (self w)) in
  let a' := if String.eqb (id failedProvider) (id current)
            then (a + 1) mod n else a in
  (exists selected,
     nth_error (_providers (self w)) a' = Some selected
     /\ _switch failedProvider w
        = (Normal selected, with_self w (set_activeProvider (self w) a')))
  /\ (2 <= n ->
      (_activeProvider (self (snd (_switch failedProvider w))) = (a + 1) mod n
       <-> id failedProvider = id current))
  /\ (NoDup (map id (_providers (self w))) ->
      id failedProvider = id current ->
      let w1 := snd (_switch failedProvider w) in
      _activeProvider (self (snd (_switch failedProvider w1))) = (a + 1) mod n
      /\ fst (_switch failedProvider w1) = fst (_switch failedProvider w)).
Proof.
  intros Hcur a n a'.
  assert (Ha : a < n) by (apply nth_error_Some; unfold a; congruence).
  destruct (_switch_in_range failedProvider current w Hcur)
    as (selected & Hsel & Hsw).
  fold a n in Hsel, Hsw. unfold next_active in Hsel, Hsw. fold a n a' in Hsel, Hsw.
  split; [exists selected; split; assumption|]. split.
  - intros Hn. rewrite Hsw. cbn [snd with_self self set_activeProvider _activeProvider].
    unfold a'. destruct (String.eqb_spec (id failedProvider) (id current)) as [Heq|Hneq].
    + tauto.
    + split; [|tauto]. intros Hback. symmetry in Hback.
      exfalso. exact (succ_mod_neq a n Ha Hn Hback).
  - intros Hnd Hid w1. subst w1. rewrite Hsw. cbn [snd fst].
    assert (Ha' : a' = (a + 1) mod n)
      by (unfold a'; rewrite Hid, String.eqb_refl; reflexivity).
    set (w1 := with_self w (set_activeProvider (self w) a')).
    assert (Hcur1 : nth_error (_providers (self w1)) (_activeProvider (self w1))
                    = Some selected) by exact Hsel.
    destruct (_switch_in_range failedProvider selected w1 Hcur1)
      as (selected' & Hsel' & Hsw').
    unfold next_active in Hsel', Hsw'.
    cbn [w1 with_self self set_activeProvider _activeProvider _providers]
      in Hsel', Hsw'.
    fold n in Hsel', Hsw'.
    destruct (String.eqb_spec (id failedProvider) (id selected)) as [Heq|Hneq].
    + (* the entry one position on has the same identifier: it is the
         same entry, and the sequence has length one *)
      assert (Hsame : a' = a).
      { apply (unique_id_same_index (_providers (self w)) a' a selected current
                 Hnd Hsel Hcur). congruence. }
      assert (Hn1 : n = 1).
      { destruct (Nat.le_gt_cases 2 n) as [Hn|Hn]; [|lia].
        exfalso. apply (succ_mod_neq a n Ha Hn). congruence. }
      rewrite Hsw'. cbn [snd fst with_self self set_activeProvider _activeProvider].
      split.
      * rewrite Hn1, !Nat.mod_1_r. reflexivity.
      * f_equal. rewrite Ha', Hn1, Nat.mod_1_r in Hsel.
        rewrite Ha', Hn1, !Nat.mod_1_r in Hsel'. congruence.
    + rewrite Hsw'. cbn [snd fst with_self self set_activeProvider _activeProvider].
      split; [exact Ha'|]. f_equal. congruence.
Qed.

Lemma switch_advances_once_per_failed_entry_witness :
  let w := Mock.fresh no_config [Mock.Cockroach; Mock.Dog; Mock.Cat] in
  let failedProvider :=
    {| id := "307418529630"; provider := Mock.Cockroach; ms := 0 |} in
  let w1 := snd (_switch failedProvider w) in
  _activeProvider (self (snd (_switch failedProvider w1))) = 1
  /\ fst (_switch failedProvider w1) = fst (_switch failedProvider w).
Proof.
  pose proof (switch_advances_once_per_failed_entry
                {| id := "307418529630"; provider := Mock.Cockroach; ms := 0 |}
                {| id := "307418529630"; provider := Mock.Cockroach; ms := 0 |}
                (Mock.fresh no_config [Mock.Cockroach; Mock.Dog; Mock.Cat])
                eq_refl) as H.
  apply H.
  - repeat constructor; cbn; intuition discriminate.
  - reflexivity.
Defined.

(** C3 as stated fails in a registry the code can build: nothing makes
    the identifiers differ. With random numbers that repeat, the three
    entries get the same identifier; a second notification for the failed
    entry then moves the index again, two positions in all. Two calls in
    flight that fail on the cockroach so end on different providers: the
    reaction of the second skips the dog, which answers. *)
Lemma repeated_id_advances_twice :
  exists this rnd',
    addProviders [Mock.Cockroach; Mock.Dog; Mock.Cat] (constructor no_config)
      Mock.dozen = (Normal this, rnd')
    /\ map id (_providers this)
       = ["012334567889"; "012334567889"; "012334567889"]
    /\ (let w := {| self := this; log := [] |} in
        let failed :=
          {| id := "012334567889"; provider := Mock.Cockroach; ms := 0 |} in
        nth_error (_providers this) (_activeProvider this) = Some failed
        /\ _activeProvider this = 0
        /\ _activeProvider (self (snd (_switch failed w))) = 1
        /\ _activeProvider
             (self (snd (_switch failed (snd (_switch failed w))))) = 2)
    /\ (let w := {| self := this; log := [] |} in
        let proxy :=
          {| proxy_target := Mock.Cockroach; proxy_get := get_trap |} in
        let first := access proxy 8 "speak" [] w in
        let second := access proxy 8 "speak" [] (snd first) in
        let first' := await (fst first, snd second) in
        let second' := await (fst second, snd first') in
        fst first' = Promised (Fulfilled (VString "woof"))
        /\ fst second' = Promised (Fulfilled (VString "meow"))
        /\ _activeProvider (self (snd second)) = 0
        /\ _activeProvider (self (snd first')) = 1
        /\ _activeProvider (self (snd second')) = 2).
Proof.
  exists (match fst (addProviders [Mock.Cockroach; Mock.Dog; Mock.Cat]
                       (constructor no_config) Mock.dozen) with
          | Normal this => this
          | Throw _ => constructor no_config
          end).
  exists (snd (addProviders [Mock.Cockroach; Mock.Dog; Mock.Cat]
                 (constructor no_config) Mock.dozen)).
  split; [vm_compute; reflexivity|].
  split; [vm_compute; reflexivity|].
  split; vm_compute; repeat split; reflexivity.
Qed.

(** ** A getter that throws *)




(** The tests [should retry on the failed getter], [should access the
    getter] and [should access the public property]. *)
Example failed_getter_is_retried :
  let proxy := {| proxy_target := Mock.Cockroach; proxy_get := get_trap |} in
  let r := access proxy 8 "SOUND" [] (Mock.fresh no_config [Mock.Cockroach; Mock.Dog]) in
  fst r = Returned (VString "woof") /\ _activeProvider (self (snd r)) = 1.
Proof. split; reflexivity. Qed.

Example should_access_the_property :
  let proxy := {| proxy_target := Mock.Cat; proxy_get := get_trap |} in
  let w := Mock.fresh no_config [Mock.Cat; Mock.Dog] in
  fst (access proxy 8 "NAME" [] w) = Returned (VString "Cat")
  /\ fst (access proxy 8 "name" [] w) = Returned (VString "Cat").
Proof. split; reflexivity. Qed.

(** ** The default policy *)

(** C5, as amended. With no [shouldRetryOn] in the configuration, the
    policy retries an error exactly when it is an instance of [Error]. *)
Theorem default_policy_retries_Error_instances (r : option nat) (er : value) :
  _shouldRetryOn (constructor {| retries := r; shouldRetryOn := None |}) er = true
  <-> exists name message, er = VError name message.
Proof.
  cbn. split.
  - destruct er; cbn; try discriminate. intros _. eauto.
  - intros (name & message & ->). reflexivity.
Qed.

(** C5 as stated fails: a thrown string is not retried by the default
    policy, and the access ends with it although a provider that answers
    comes next. *)
Lemma default_policy_rejects_non_Error :
  ~ (forall er, _shouldRetryOn (constructor no_config) er = true)
  /\ (let proxy := {| proxy_target := Mock.Mime; proxy_get := get_trap |} in
      let r := access proxy 8 "syncSpeak" []
                 (Mock.fresh no_config [Mock.Mime; Mock.Dog]) in
      fst r = Threw (VString "silence")
      /\ _activeProvider (self (snd r)) = 0).
Proof.
  split.
  - intros H. specialize (H (VString "silence")). discriminate H.
  - split; reflexivity.
Qed.

(** ** The latency field *)

(** Nothing writes [ms]: it is [0] in every entry of every state. *)
Lemma ms_never_written (w : world) :
  reachable w -> Forall (fun entry => ms entry = 0%Z) (_providers (self w)).
Proof.
  induction 1 as [config
                 |w provider rnd this' rnd' Hw IH Hadd
                 |w proxy stack p Hw IH Hinit
                 |w proxy stack retries target p prop args Hw IH Hinit
                 |w proxy stack retries target p args er Hw IH Hinit
                 |w failedProvider Hw IH].
  - constructor.
  - destruct (addProvider_appends provider (self w) rnd) as (i & rnd0 & _ & Heq).
    rewrite Heq in Hadd. injection Hadd as <- _.
    cbn. apply Forall_app. split; [exact IH|]. repeat constructor.
  - rewrite (same_providers _ _
               (proj1 (reachable_advances_from w proxy Hinit) stack p)).
    exact IH.
  - rewrite (same_providers _ _
               (proj1 (proj2 (reachable_advances_from w proxy Hinit))
                  stack retries target p prop args)).
    exact IH.
  - rewrite (same_providers _ _
               (proj2 (proj2 (reachable_advances_from w proxy Hinit))
                  stack retries target p args er)).
    exact IH.
  - rewrite (same_providers _ _ (advances_switch failedProvider w)). exact IH.
Qed.

(** C6 does not hold of the code: after an asynchronous attempt has
    settled with a value, and after a synchronous attempt has failed and a
    second one has answered, the [ms] of every entry is still [0]. *)
Theorem latency_is_never_recorded :
  let proxy := {| proxy_target := Mock.Cat; proxy_get := get_trap |} in
  let settled_call :=
    await (access proxy 8 "speak" [] (Mock.fresh no_config [Mock.Cat; Mock.Dog])) in
  let failed_then_served :=
    await (access proxy 8 "syncSpeak" []
             (Mock.fresh no_config [Mock.Cockroach; Mock.Dog])) in
  fst settled_call = Promised (Fulfilled (VString "meow"))
  /\ map ms (_providers (self (snd settled_call))) = [0%Z; 0%Z]
  /\ fst failed_then_served = Returned (VString "woof")
  /\ map ms (_providers (self (snd failed_then_served))) = [0%Z; 0%Z].
Proof.
  repeat split; reflexivity.
Qed.

(** ** [uid] *)

Lemma all_digits_append (s t : string) :
  all_digits (s ++ t)%string = all_digits s && all_digits t.
Proof.
  induction s as [|c s IH]; cbn; [reflexivity|].
  rewrite IH. apply andb_assoc.
Qed.

(** The number appended at each turn is one of 0, ..., 10. *)
Lemma Math_round_digit (x : Q) :
  (0 <= x)%Q -> (x < 1)%Q -> (0 <= Math_round (x * 10)%Q <= 10)%Z.
Proof.
  intros H0 H1. unfold Math_round.
  assert (Hlo : (0 <= x * 10 + (1 # 2))%Q).
  { unfold Qle in *. destruct x as [n d]. cbn in *. nia. }
  assert (Hhi : (x * 10 + (1 # 2) <= 21 # 2)%Q).
  { unfold Qle, Qlt in *. destruct x as [n d]. cbn in *. nia. }
  apply Qfloor_resp_le in Hlo, Hhi.
  change (Qfloor 0) with 0%Z in Hlo. change (Qfloor (21 # 2)) with 10%Z in Hhi.
  lia.
Qed.

Lemma Number_toString_digit (n : Z) :
  (0 <= n <= 10)%Z ->
  1 <= String.length (Number_toString n) <= 2
  /\ all_digits (Number_toString n) = true.
Proof.
  intros Hn. rewrite <- (Z2Nat.id n) by lia.
  assert (Hm : Z.to_nat n <= 10) by lia.
  revert Hm. generalize (Z.to_nat n) as m. intros m Hm.
  do 11 (destruct m as [|m]; [cbn; split; [lia|reflexivity]|]).
  lia.
Qed.

Lemma uid_loop_digits (len turns : nat) :
  forall id rnd,
    in_unit_interval rnd ->
    all_digits id = true ->
    String.length id <= len + 1 ->
    len <= String.length id + turns ->
    let r := uid_loop turns len id rnd in
    len <= String.length (fst r) <= len + 1
    /\ all_digits (fst r) = true
    /\ exists k, k <= turns /\ forall n, snd r n = rnd (k + n).
Proof.
  induction turns as [|turns IH]; intros id rnd Hrnd Hdig Hup Hlen; cbn [uid_loop].
  - destruct (String.length id <? len) eqn:Hlt; cbn [fst snd].
    + apply Nat.ltb_lt in Hlt. lia.
    + apply Nat.ltb_ge in Hlt. split; [lia|]. split; [exact Hdig|].
      exists 0. split; [lia|reflexivity].
  - destruct (String.length id <? len) eqn:Hlt.
    + apply Nat.ltb_lt in Hlt. cbn [Math_random].
      destruct (Hrnd 0) as [H0 H1].
      pose proof (Number_toString_digit _ (Math_round_digit (rnd 0) H0 H1))
        as [Hl Hd].
      destruct (IH (id ++ Number_toString (Math_round (rnd 0%nat * 10)%Q))%string
                  (fun n => rnd (S n))) as (Hres & Hdig' & k & Hk & Hshift).
      * intros n. apply Hrnd.
      * rewrite all_digits_append, Hdig, Hd. reflexivity.
      * rewrite String_length_append. lia.
      * rewrite String_length_append. lia.
      * split; [exact Hres|]. split; [exact Hdig'|].
        exists (S k). split; [lia|]. intros n. rewrite Hshift. reflexivity.
    + apply Nat.ltb_ge in Hlt. cbn [fst snd]. split; [lia|].
      split; [exact Hdig|]. exists 0. split; [lia|reflexivity].
Qed.

Lemma spread_in_unit_interval : in_unit_interval Mock.spread.
Proof.
  intros n. unfold Mock.spread.
  pose proof (Nat.mod_upper_bound (7 * n + 3) 10 ltac:(lia)) as Hlt.
  split; [unfold Qle|unfold Qlt]; cbn [Qnum Qden]; lia.
Qed.

(** ** Registration *)

(** C7, as amended. With [Math.random()] in the unit interval,
    [addProvider] never throws. It appends one entry to the end of the
    sequence, holding the provider, zero latency and an identifier of
    twelve or thirteen decimal digits made from the random numbers (nothing
    checks that it differs from the identifiers already given); it leaves
    the entries registered before, the active index and the policy as they
    are, and returns the instance itself. *)
Theorem addProvider_appends_entry_returns_this (provider : Provider)
  (this : FailoverProvider) (rnd : random) :
  in_unit_interval rnd ->
  exists id rnd',
    uid 12 rnd = (Normal id, rnd')
    /\ 12 <= String.length id <= 13
    /\ all_digits id = true
    /\ addProvider provider this rnd =
       (Normal {| _retries := _retries this;
                  _shouldRetryOn := _shouldRetryOn this;
                  _activeProvider := _activeProvider this;
                  _providers :=
                    _providers this
                    ++ [ {| id := id; provider := provider; ms := 0 |} ] |},
        rnd').
Proof.
  intros Hrnd. unfold addProvider, uid. cbn [Nat.ltb Nat.leb orb].
  pose proof (uid_loop_digits 12 12 "" rnd Hrnd eq_refl) as H.
  cbn [String.length] in H. specialize (H ltac:(lia) ltac:(lia)). cbv zeta in H.
  destruct (uid_loop 12 12 "" rnd) as [id rnd']. cbn [fst snd] in H.
  destruct H as (Hlen & Hdig & _).
  exists id, rnd'. split; [reflexivity|].
  split; [lia|]. split; [exact Hdig|reflexivity].
Qed.

Lemma addProvider_appends_entry_returns_this_witness :
  exists id rnd',
    uid 12 Mock.spread = (Normal id, rnd')
    /\ 12 <= String.length id <= 13
    /\ all_digits id = true
    /\ addProvider Mock.Cat (constructor no_config) Mock.spread =
       (Normal {| _retries := _retries (constructor no_config);
                  _shouldRetryOn := _shouldRetryOn (constructor no_config);
                  _activeProvider := _activeProvider (constructor no_config);
                  _providers :=
                    _providers (constructor no_config)
                    ++ [ {| id := id; provider := Mock.Cat; ms := 0 |} ] |},
        rnd').
Proof.
  apply (addProvider_appends_entry_returns_this Mock.Cat (constructor no_config)
           Mock.spread).
  exact spread_in_unit_interval.
Defined.

(** C7 as stated fails: what [addProvider] returns is the instance, not an
    identifier, and with random numbers that repeat the second entry gets
    the identifier of the first. *)
Lemma addProvider_returns_this_and_may_repeat_id :
  exists rnd1 rnd2,
    addProvider Mock.Cat (constructor no_config) Mock.dozen
    = (Normal {| _retries := 3;
                 _shouldRetryOn := fun error => instanceof_Error error;
                 _activeProvider := 0;
                 _providers :=
                   [ {| id := "012334567889"; provider := Mock.Cat; ms := 0 |} ] |},
       rnd1)
    /\ addProvider Mock.Dog
         {| _retries := 3;
            _shouldRetryOn := fun error => instanceof_Error error;
            _activeProvider := 0;
            _providers :=
              [ {| id := "012334567889"; provider := Mock.Cat; ms := 0 |} ] |}
         rnd1
       = (Normal {| _retries := 3;
                    _shouldRetryOn := fun error => instanceof_Error error;
                    _activeProvider := 0;
                    _providers :=
                      [ {| id := "012334567889"; provider := Mock.Cat; ms := 0 |};
                        {| id := "012334567889"; provider := Mock.Dog; ms := 0 |} ] |},
          rnd2)
    /\ ~ NoDup ["012334567889"; "012334567889"].
Proof.
  exists (snd (addProvider Mock.Cat (constructor no_config) Mock.dozen)).
  exists (snd (addProvider Mock.Dog (constructor no_config)
                 (snd (addProvider Mock.Cat (constructor no_config) Mock.dozen)))).
  split; [vm_compute; reflexivity|]. split; [vm_compute; reflexivity|].
  intros Hnd. inversion Hnd as [|x l Hin _]. apply Hin. left. reflexivity.
Qed.

Lemma addProviders_registers (providers : list Provider) :
  forall this rnd,
  exists this' rnd',
    addProviders providers this rnd = (Normal this', rnd')
    /\ map provider (_providers this') = map provider (_providers this) ++ providers
    /\ _activeProvider this' = _activeProvider this.
Proof.
  induction providers as [|pv rest IH]; intros this rnd; cbn [addProviders].
  - exists this, rnd. rewrite app_nil_r. auto.
  - destruct (addProvider_appends pv this rnd) as (i & rnd1 & _ & ->).
    set (this1 := {| _retries := _retries this |}).
    destruct (IH this1 rnd1) as (this' & rnd' & -> & Hmap & Hactive).
    exists this', rnd'. split; [reflexivity|]. split; [|exact Hactive].
    rewrite Hmap. cbn. rewrite map_app, <- app_assoc. reflexivity.
Qed.

Lemma reachable_addProviders (providers : list Provider) :
  forall w rnd this' rnd',
    reachable w ->
    addProviders providers (self w) rnd = (Normal this', rnd') ->
    reachable (with_self w this').
Proof.
  induction providers as [|pv rest IH]; intros w rnd this' rnd' Hw Hadd;
    cbn [addProviders] in Hadd.
  - injection Hadd as <- _. rewrite with_self_same. exact Hw.
  - destruct (addProvider pv (self w) rnd) as [[this1|er] rnd1] eqn:H1;
      [|discriminate].
    apply (IH (with_self w this1) rnd1 this' rnd'
             (reach_addProvider w pv rnd this1 rnd1 Hw H1) Hadd).
Qed.

Lemma mock_reachable :
  reachable (Mock.fresh no_config [Mock.Cockroach; Mock.Dog]).
Proof.
  apply (reachable_addProviders [Mock.Cockroach; Mock.Dog]
           {| self := constructor no_config; log := [] |} Mock.spread
           (Mock.factory no_config [Mock.Cockroach; Mock.Dog])
           (snd (addProviders [Mock.Cockroach; Mock.Dog]
                   (constructor no_config) Mock.spread))).
  - apply reach_constructor.
  - vm_compute. reflexivity.
Qed.

(** ** The registry invariant *)

(** C8. In every state the instance can be in, with at least one provider
    registered, the active index is an index of the sequence. The states
    are those of [reachable]: registration, reads through the proxy with
    the reads nested in them, calls and reactions of what they return, and
    [_switch], in any order. *)
Theorem active_index_in_bounds (w : world) :
  reachable w ->
  _providers (self w) <> [] ->
  0 <= _activeProvider (self w) < List.length (_providers (self w)).
Proof.
  intros Hw Hne. split; [lia|].
  destruct (reachable_active_in_range w Hw) as [H0|Hlt]; [|exact Hlt].
  rewrite H0. destruct (_providers (self w)); [congruence|cbn; lia].
Qed.

Lemma active_index_in_bounds_witness :
  let proxy := {| proxy_target := Mock.Cockroach; proxy_get := get_trap |} in
  let w :=
    snd (read proxy 8 "SOUND" (Mock.fresh no_config [Mock.Cockroach; Mock.Dog])) in
  0 <= _activeProvider (self w) < List.length (_providers (self w)).
Proof.
  apply (active_index_in_bounds
           (snd (read {| proxy_target := Mock.Cockroach; proxy_get := get_trap |}
                   8 "SOUND" (Mock.fresh no_config [Mock.Cockroach; Mock.Dog])))).
  - apply reach_read; [exact mock_reachable|reflexivity].
  - cbn. discriminate.
Defined.

(** ** [initialize] *)

(** C9. After the constructor and any registrations, [initialize] throws
    exactly when no provider was registered, and then it throws its own
    [Error]; with a provider registered it returns the proxy, which wraps
    the first provider and reads through [get_trap]. [initialize] is a
    function of the instance alone: it asks nothing of any provider and
    has nothing to retry. *)
Theorem initialize_throws_iff_no_provider (config : FailoverProviderConfig)
  (providers : list Provider) (rnd : random) :
  exists this rnd',
    addProviders providers (constructor config) rnd = (Normal this, rnd')
    /\ ((exists er, initialize this = Throw er) <-> providers = [])
    /\ (providers = [] ->
        initialize this
        = Throw (VError "Error"
            "Cannot initialize an empty provider. Call `addProvider` before this function."))
    /\ (forall first rest,
          providers = first :: rest ->
          initialize this
          = Normal {| proxy_target := first; proxy_get := get_trap |}).
Proof.
  destruct (addProviders_registers providers (constructor config) rnd)
    as (this & rnd' & Hadd & Hmap & _).
  exists this, rnd'. split; [exact Hadd|]. cbn in Hmap.
  unfold initialize.
  destruct (_providers this) as [|[i pv m] entries]; cbn in Hmap; subst providers.
  - split; [split; eauto|]. split; [reflexivity|]. discriminate.
  - split; [split; [intros (er & H)|]; discriminate|].
    split; [discriminate|]. intros first rest [= <- _]. reflexivity.
Qed.

(** ** What an access leaves untouched *)





(** ** The tests of the repository *)

Example should_switch_provider_sync :
  let proxy := {| proxy_target := Mock.Cockroach; proxy_get := get_trap |} in
  fst (access proxy 8 "syncSpeak" []
         (Mock.fresh no_config [Mock.Cockroach; Mock.Dog; Mock.Cat]))
  = Returned (VString "woof").
Proof. reflexivity. Qed.

Example should_switch_provider_async :
  let proxy := {| proxy_target := Mock.Cockroach; proxy_get := get_trap |} in
  fst (await (access proxy 8 "speak" []
                (Mock.fresh no_config [Mock.Cockroach; Mock.Dog; Mock.Cat])))
  = Promised (Fulfilled (VString "woof")).
Proof. reflexivity. Qed.

Example should_retry_1_times_and_fail :
  let proxy := {| proxy_target := Mock.Cockroach; proxy_get := get_trap |} in
  let w :=
    Mock.fresh {| retries := Some 1; shouldRetryOn := None |}
      [Mock.Cockroach; Mock.Cockroach; Mock.Cat; Mock.Dog] in
  fst (access proxy 8 "syncSpeak" [] w) = Threw Mock.no_speech
  /\ fst (await (access proxy 8 "speak" [] w)) = Promised (Rejected Mock.no_speech).
Proof. split; reflexivity. Qed.

Example should_not_retry_on_custom_shouldRetryOn :
  let proxy := {| proxy_target := Mock.Cockroach; proxy_get := get_trap |} in
  let w :=
    Mock.fresh {| retries := None; shouldRetryOn := Some retry_unless_cockroach |}
      [Mock.Cockroach; Mock.Cat; Mock.Dog] in
  fst (access proxy 8 "syncSpeak" [] w) = Threw Mock.no_speech
  /\ fst (await (access proxy 8 "speak" [] w)) = Promised (Rejected Mock.no_speech).
Proof. split; reflexivity. Qed.

(** Two calls in flight that fail on the same provider: the reaction of
    the second finds the active index already moved and does not move it
    again; both end on the provider that comes next. *)
Example concurrent_failures_advance_once :
  let proxy := {| proxy_target := Mock.Cockroach; proxy_get := get_trap |} in
  let w0 := Mock.fresh no_config [Mock.Cockroach; Mock.Dog; Mock.Cat] in
  let (first, w1) := access proxy 8 "speak" [] w0 in
  let (second, w2) := access proxy 8 "speak" [] w1 in
  let (first', w3) := await (first, w2) in
  let (second', w4) := await (second, w3) in
  first' = Promised (Fulfilled (VString "woof"))
  /\ second' = Promised (Fulfilled (VString "woof"))
  /\ _activeProvider (self w2) = 0
  /\ _activeProvider (self w3) = 1
  /\ _activeProvider (self w4) = 1.
Proof. vm_compute. repeat split; reflexivity. Qed.

(** A value with a [then] that is no promise: [re.then(...).catch(...)]
    stands outside the [try], so what it throws reaches the caller with no
    retry, although the next provider answers. *)
Example unchainable_result_is_not_retried :
  let broken :=
    {| member := fun p =>
         if String.eqb p "speak" then
           Gives (GetFunction (fun _ =>
             Unchainable (VError "TypeError" "re.then(...).catch is not a function")))
         else Gives (GetValue VUndefined) |} in
  let proxy := {| proxy_target := broken; proxy_get := get_trap |} in
  let r := await (access proxy 8 "speak" []
                    (Mock.fresh no_config [broken; Mock.Dog])) in
  fst r = Threw (VError "TypeError" "re.then(...).catch is not a function")
  /\ _activeProvider (self (snd r)) = 0.
Proof. split; reflexivity. Qed.

(** * Further properties of the code *)

(** ** The identifiers *)

(** [uid] with a length from 1 to 256 and random numbers in the unit
    interval returns [len] or [len + 1] decimal digits, and has drawn at
    most [len] numbers from the source. *)
Theorem uid_returns_digits (len : nat) (rnd : random) :
  1 <= len <= 256 ->
  in_unit_interval rnd ->
  exists id rnd',
    uid len rnd = (Normal id, rnd')
    /\ len <= String.length id <= len + 1
    /\ all_digits id = true
    /\ exists k, k <= len /\ forall n, rnd' n = rnd (k + n).
Proof.
  intros Hlen Hrnd. unfold uid.
  assert (Hin : (len <? 1) || (256 <? len) = false).
  { apply orb_false_iff. split; apply Nat.ltb_ge; lia. }
  rewrite Hin.
  pose proof (uid_loop_digits len len "" rnd Hrnd eq_refl) as H.
  cbn [String.length] in H. specialize (H ltac:(lia) ltac:(lia)). cbv zeta in H.
  destruct (uid_loop len len "" rnd) as [id rnd']. cbn [fst snd] in H.
  exists id, rnd'. split; [reflexivity|exact H].
Qed.

Lemma uid_returns_digits_witness :
  exists id rnd',
    uid 12 Mock.spread = (Normal id, rnd')
    /\ 12 <= String.length id <= 12 + 1
    /\ all_digits id = true
    /\ exists k, k <= 12 /\ forall n, rnd' n = Mock.spread (k + n).
Proof.
  apply (uid_returns_digits 12 Mock.spread).
  - lia.
  - exact spread_in_unit_interval.
Defined.

(** ** Errors that are not retried *)

Lemma failover_stops (retries : nat) (target : ProviderProxy) (p : string)
  (receiver : proxy_reader) (args : list value) (er : value) (w : world) :
  retries = 0 \/ _shouldRetryOn (self w) er = false ->
  failover retries target p receiver args er w = (Threw er, w).
Proof.
  intros Hstop. unfold failover. destruct retries as [|retries']; [reflexivity|].
  destruct Hstop as [Hstop|Hstop]; [discriminate|]. rewrite Hstop. reflexivity.
Qed.

(** When the entry at the active index fails with an error the policy
    does not retry, or no retry is configured, the access ends with that
    error after asking this one provider, whatever the others would
    answer, and leaves the instance as it was. The member is one that
    reads nothing through [this] but data properties. *)
Theorem rejected_error_propagates_at_once (proxy : Proxy) (stack : nat)
  (p : string) (args : list value) (er : value) (target : ProviderProxy)
  (w : world) :
  initialize (self w) = Normal proxy ->
  nth_error (_providers (self w)) (_activeProvider (self w)) = Some target ->
  fails_with (provider target) p args er ->
  _retries (self w) = 0 \/ _shouldRetryOn (self w) er = false ->
  result_error (fst (await (access proxy (S (S stack)) p args w))) = Some er
  /\ self (snd (await (access proxy (S (S stack)) p args w))) = self w
  /\ exists evs,
       log (snd (await (access proxy (S (S stack)) p args w))) = evs ++ log w
       /\ Forall (applied_with args) evs
       /\ asked p evs = 1
       /\ attempted p evs = [target].
Proof.
  intros Hinit Htarget Hfails Hstop.
  rewrite (await_access_serve (self w) proxy (S stack) target p args w
             Hinit Htarget).
  pose proof (read_plain proxy stack (initialize_get _ _ Hinit)) as Hplain.
  unfold fails_with in Hfails.
  destruct (lookup_of (provider target) p) as [l|] eqn:Hl; [|contradiction].
  destruct (serve_quiet (_retries (self w)) target p (read proxy (S stack))
              args l w Hplain Htarget Hl) as (w1 & Hs & Hlog & ->).
  assert (Hstop1 : forall w2, self w2 = self w ->
            failover (_retries (self w)) target p (read proxy (S stack))
              args er w2 = (Threw er, w2)).
  { intros w2 Hw2. apply failover_stops. rewrite Hw2. exact Hstop. }
  pose proof (attempted_trail target p) as Hone.
  destruct (trail_counts target p) as (Hasked & _ & _).
  destruct l as [er0|prop|prop]; [|contradiction|].
  - subst er0. rewrite (Hstop1 w1 Hs). cbn [fst snd result_error].
    split; [reflexivity|]. split; [exact Hs|].
    exists (trail target p). split; [exact Hlog|].
    split; [apply trail_applied|]. split; assumption.
  - cbv zeta.
    assert (Hend : forall r : called * world,
              r = (Threw er, record (EApply target p args) w1)
              \/ r = promisify (Threw er, record (EApply target p args) w1) ->
              result_error (fst r) = Some er
              /\ self (snd r) = self w
              /\ exists evs,
                   log (snd r) = evs ++ log w
                   /\ Forall (applied_with args) evs
                   /\ asked p evs = 1
                   /\ attempted p evs = [target]).
    { intros r Hr.
      assert (Hr' : result_error (fst r) = Some er
                    /\ snd r = record (EApply target p args) w1)
        by (destruct Hr as [-> | ->]; split; reflexivity).
      destruct Hr' as [Her Hsnd]. rewrite Hsnd.
      split; [exact Her|]. split; [exact Hs|].
      exists (EApply target p args :: trail target p).
      split; [cbn [record log]; rewrite Hlog; reflexivity|].
      split; [constructor; [reflexivity|apply trail_applied]|].
      split; [exact Hasked|].
      rewrite attempted_call. exact Hone. }
    destruct Hfails as [Hprop|Hprop]; rewrite Hprop;
      rewrite (Hstop1 (record (EApply target p args) w1) Hs);
      apply Hend; auto.
Qed.

(** The test [should not retry on custom shouldRetryOn], asynchronous. *)
Lemma rejected_error_propagates_at_once_witness :
  let proxy := {| proxy_target := Mock.Cockroach; proxy_get := get_trap |} in
  let target :=
    {| id := "307418529630"; provider := Mock.Cockroach; ms := 0 |} in
  let w :=
    Mock.fresh {| retries := None; shouldRetryOn := Some retry_unless_cockroach |}
      [Mock.Cockroach; Mock.Cat; Mock.Dog] in
  result_error (fst (await (access proxy 8 "speak" [] w))) = Some Mock.no_speech
  /\ self (snd (await (access proxy 8 "speak" [] w))) = self w
  /\ exists evs,
       log (snd (await (access proxy 8 "speak" [] w))) = evs ++ log w
       /\ Forall (applied_with []) evs
       /\ asked "speak" evs = 1
       /\ attempted "speak" evs = [target].
Proof.
  apply (rejected_error_propagates_at_once
           {| proxy_target := Mock.Cockroach; proxy_get := get_trap |} 6
           "speak" [] Mock.no_speech
           {| id := "307418529630"; provider := Mock.Cockroach; ms := 0 |}
           (Mock.fresh
              {| retries := None; shouldRetryOn := Some retry_unless_cockroach |}
              [Mock.Cockroach; Mock.Cat; Mock.Dog])).
  - reflexivity.
  - reflexivity.
  - right. reflexivity.
  - right. reflexivity.
Defined.

(** ** The order of the attempts *)





(** ** Failures reported for an entry that is no longer active *)

Lemma failover_stale (retries' : nat) (target current : ProviderProxy)
  (p : string) (receiver : proxy_reader) (args : list value) (er : value)
  (w : world) :
  nth_error (_providers (self w)) (_activeProvider (self w)) = Some current ->
  id target <> id current ->
  _shouldRetryOn (self w) er = true ->
  failover (S retries') target p receiver args er w
  = serve retries' current p receiver args w.
Proof.
  intros Hcur Hid Hretry.
  destruct (_switch_in_range target current w Hcur) as (selected & Hsel & Hsw).
  unfold next_active in *. apply String.eqb_neq in Hid. rewrite Hid in *.
  rewrite Hcur in Hsel. injection Hsel as <-.
  rewrite set_activeProvider_same, with_self_same in Hsw.
  unfold failover. rewrite Hretry. cbn [negb]. rewrite Hsw. reflexivity.
Qed.

Lemma await_reaction_failover (retries : nat) (target : ProviderProxy)
  (p : string) (receiver : proxy_reader) (args : list value) (er : value)
  (w : world) :
  await (Promised (Reaction (on_failure retries target p receiver args er)), w)
  = promisify (failover retries target p receiver args er w).
Proof.
  rewrite await_Reaction. f_equal.
  apply await_on_failure. intros retries' _. apply await_resume_proxy.
Qed.

Lemma await_closure_failed (retries : nat) (target : ProviderProxy)
  (p : string) (receiver : proxy_reader) (prop : list value -> invocation)
  (args : list value) (er : value) (w : world) :
  prop args = Throws er \/ prop args = Thenable (Rejects er) ->
  snd (await (closure retries target p receiver prop args w))
  = snd (failover retries target p receiver args er
           (record (EApply target p args) w))
  /\ result_value (fst (await (closure retries target p receiver prop args w)))
     = result_value
         (fst (failover retries target p receiver args er
                 (record (EApply target p args) w))).
Proof.
  intros [Hprop|Hprop]; unfold closure; rewrite Hprop.
  - rewrite (await_on_failure retries receiver
               (fun r _ => await_resume_proxy receiver r)). split; reflexivity.
  - rewrite await_reaction_failover, promisify_snd, promisify_value.
    split; reflexivity.
Qed.

(** A function read from the proxy keeps the entry it was read for. When
    it is called after the active index has moved to an entry with another
    identifier, and the call fails with an error the policy retries, the
    active index is not moved: the entry at the active index serves the
    retry, and when it answers the instance is left as it is. *)
Theorem stale_failure_does_not_advance (proxy : Proxy) (stack : nat)
  (retries' : nat) (target current : ProviderProxy) (p : string)
  (prop : list value -> invocation) (args : list value) (er re : value)
  (w : world) :
  initialize (self w) = Normal proxy ->
  nth_error (_providers (self w)) (_activeProvider (self w)) = Some current ->
  id target <> id current ->
  prop args = Throws er \/ prop args = Thenable (Rejects er) ->
  _shouldRetryOn (self w) er = true ->
  succeeds_with (provider current) p args re ->
  result_value
    (fst (await (closure (S retries') target p (read proxy (S stack))
                   prop args w))) = Some re
  /\ self (snd (await (closure (S retries') target p (read proxy (S stack))
                         prop args w))) = self w.
Proof.
  intros Hinit Hcur Hid Hprop Hretry Hsucc.
  destruct (await_closure_failed (S retries') target p (read proxy (S stack))
              prop args er w Hprop) as [-> ->].
  set (w0 := record (EApply target p args) w).
  rewrite (failover_stale retries' target current p (read proxy (S stack))
             args er w0 Hcur Hid Hretry).
  destruct (serve_reaches (read proxy (S stack)) p args re 0
              (read_plain proxy stack (initialize_get _ _ Hinit))
              retries' current w0) as (Hval & Hself & _).
  - lia.
  - exact Hcur.
  - intros i Hi. lia.
  - exists current. split; [apply (entry_after_0 _ _ Hcur)|exact Hsucc].
  - split; [exact Hval|]. rewrite Hself. apply (moved_on_0 (self w0) current Hcur).
Qed.

Lemma stale_failure_does_not_advance_witness :
  let proxy := {| proxy_target := Mock.Cockroach; proxy_get := get_trap |} in
  let target :=
    {| id := "307418529630"; provider := Mock.Cockroach; ms := 0 |} in
  let w :=
    with_self (Mock.fresh no_config [Mock.Cockroach; Mock.Dog; Mock.Cat])
      (set_activeProvider
         (Mock.factory no_config [Mock.Cockroach; Mock.Dog; Mock.Cat]) 2) in
  let r :=
    await (closure 3 target "syncSpeak" (read proxy 7)
             (fun _ => Throws Mock.no_speech) [] w) in
  result_value (fst r) = Some (VString "meow") /\ self (snd r) = self w.
Proof.
  apply (stale_failure_does_not_advance
           {| proxy_target := Mock.Cockroach; proxy_get := get_trap |} 6 2
           {| id := "307418529630"; provider := Mock.Cockroach; ms := 0 |}
           {| id := "185296307418"; provider := Mock.Cat; ms := 0 |}
           "syncSpeak" (fun _ => Throws Mock.no_speech) [] Mock.no_speech
           (VString "meow")).
  - reflexivity.
  - reflexivity.
  - cbn. discriminate.
  - left. reflexivity.
  - reflexivity.
  - left. reflexivity.
Defined.

(** ** Two calls in flight *)

Lemma access_rejecting (this : FailoverProvider) (proxy : Proxy)
  (stack : nat) (target : ProviderProxy) (p : string)
  (prop : list value -> invocation) (args : list value) (er : value)
  (w : world) :
  initialize this = Normal proxy ->
  nth_error (_providers (self w)) (_activeProvider (self w)) = Some target ->
  lookup_of (provider target) p = Some (GetFunction prop) ->
  prop args = Thenable (Rejects er) ->
  exists w1,
    self w1 = self w
    /\ access proxy (S (S stack)) p args w
       = (Promised (Reaction (on_failure (_retries (self w)) target p
                                (read proxy (S stack)) args er)),
          record (EApply target p args) w1).
Proof.
  intros Hinit Htarget Hl Hprop.
  destruct (Reflect_get_quiet (read proxy (S stack)) target p _ w
              (read_plain proxy stack (initialize_get _ _ Hinit)) Htarget Hl)
    as (w1 & Hget & Hs & _).
  exists w1. split; [exact Hs|].
  unfold access.
  change (read proxy (S (S stack)) p w)
    with (proxy_get proxy p (read proxy (S stack)) w).
  rewrite (initialize_get this proxy Hinit). unfold get_trap.
  rewrite Htarget, _proxy_unfold, Hget. cbn [resume]. unfold closure.
  rewrite Hprop. reflexivity.
Qed.

(** Two calls are started on the same active entry, whose method rejects
    both with errors the policy retries; the entry that comes next has
    another identifier and answers. Once both promises have settled, each
    call has the answer of the next entry and the active index has moved
    one position, not two: the reaction that runs second finds the index
    moved already and leaves it. *)
Theorem overlapping_failures_advance_once (proxy : Proxy) (stack : nat)
  (target next : ProviderProxy) (p : string)
  (prop : list value -> invocation) (args1 args2 : list value)
  (er1 er2 re1 re2 : value) (w : world) :
  initialize (self w) = Normal proxy ->
  nth_error (_providers (self w)) (_activeProvider (self w)) = Some target ->
  entry_after (self w) 1 = Some next ->
  id target <> id next ->
  1 <= _retries (self w) ->
  lookup_of (provider target) p = Some (GetFunction prop) ->
  prop args1 = Thenable (Rejects er1) ->
  prop args2 = Thenable (Rejects er2) ->
  _shouldRetryOn (self w) er1 = true ->
  _shouldRetryOn (self w) er2 = true ->
  succeeds_with (provider next) p args1 re1 ->
  succeeds_with (provider next) p args2 re2 ->
  let first := access proxy (S (S stack)) p args1 w in
  let second := access proxy (S (S stack)) p args2 (snd first) in
  let first' := await (fst first, snd second) in
  let second' := await (fst second, snd first') in
  result_value (fst first') = Some re1
  /\ result_value (fst second') = Some re2
  /\ self (snd second) = self w
  /\ self (snd first') = moved_on (self w) 1
  /\ self (snd second') = moved_on (self w) 1.
Proof.
  intros Hinit Htarget Hnext Hid Hretries Hget Hprop1 Hprop2 Hretry1 Hretry2
    Hsucc1 Hsucc2.
  pose proof (read_plain proxy stack (initialize_get _ _ Hinit)) as Hplain.
  set (receiver := read proxy (S stack)) in *.
  cbv zeta.
  destruct (access_rejecting (self w) proxy stack target p prop args1 er1 w
              Hinit Htarget Hget Hprop1) as (w1 & Hs1 & ->).
  cbn [fst snd]. set (w1' := record (EApply target p args1) w1).
  assert (Hself1 : self w1' = self w) by exact Hs1.
  assert (Htarget1 : nth_error (_providers (self w1')) (_activeProvider (self w1'))
                     = Some target) by (rewrite Hself1; exact Htarget).
  destruct (access_rejecting (self w) proxy stack target p prop args2 er2 w1'
              Hinit Htarget1 Hget Hprop2) as (w2 & Hs2 & ->).
  cbn [fst snd]. set (w2' := record (EApply target p args2) w2).
  assert (Hself2 : self w2' = self w) by (rewrite <- Hself1; exact Hs2).
  rewrite Hself1. fold receiver.
  destruct (_retries (self w)) as [|retries'] eqn:Hr; [lia|].
  (* the reaction of the first call moves the index *)
  rewrite (await_reaction_failover (S retries') target p receiver args1 er1 w2').
  destruct (failover_step retries' target p receiver args1 er1 w2')
    as (next' & Hnext' & Hstep);
    [rewrite Hself2; exact Htarget|rewrite Hself2; exact Hretry1|].
  rewrite Hself2 in Hnext'. rewrite Hnext in Hnext'. injection Hnext' as <-.
  rewrite Hstep. clear Hstep. rewrite Hself2.
  set (w3 := with_self w2' (moved_on (self w) 1)).
  assert (Hcur3 : nth_error (_providers (self w3)) (_activeProvider (self w3))
                  = Some next) by exact Hnext.
  destruct (serve_reaches receiver p args1 re1 0 Hplain retries' next w3)
    as (Hval1 & Hself3 & _).
  { lia. }
  { exact Hcur3. }
  { intros i Hi. lia. }
  { exists next. split; [apply (entry_after_0 _ _ Hcur3)|exact Hsucc1]. }
  rewrite (moved_on_0 _ _ Hcur3) in Hself3.
  rewrite promisify_value, promisify_snd.
  set (r1 := serve retries' next p receiver args1 w3) in *.
  (* the reaction of the second call finds it moved *)
  rewrite (await_reaction_failover (S retries') target p receiver args2 er2
             (snd r1)).
  assert (Hcur4 : nth_error (_providers (self (snd r1)))
                    (_activeProvider (self (snd r1))) = Some next)
    by (rewrite Hself3; exact Hcur3).
  rewrite (failover_stale retries' target next p receiver args2 er2 (snd r1)
             Hcur4 Hid)
    by (rewrite Hself3; exact Hretry2).
  destruct (serve_reaches receiver p args2 re2 0 Hplain retries' next (snd r1))
    as (Hval2 & Hself4 & _).
  { lia. }
  { exact Hcur4. }
  { intros i Hi. lia. }
  { exists next. split; [apply (entry_after_0 _ _ Hcur4)|exact Hsucc2]. }
  rewrite (moved_on_0 _ _ Hcur4) in Hself4.
  rewrite promisify_value, promisify_snd.
  split; [exact Hval1|]. split; [exact Hval2|]. split; [reflexivity|].
  split; [exact Hself3|]. rewrite Hself4. exact Hself3.
Qed.

Lemma overlapping_failures_advance_once_witness :
  let proxy := {| proxy_target := Mock.Cockroach; proxy_get := get_trap |} in
  let w := Mock.fresh no_config [Mock.Cockroach; Mock.Dog; Mock.Cat] in
  let first := access proxy 8 "speak" [VNumber 1] w in
  let second := access proxy 8 "speak" [VNumber 2] (snd first) in
  let first' := await (fst first, snd second) in
  let second' := await (fst second, snd first') in
  result_value (fst first') = Some (VString "woof")
  /\ result_value (fst second') = Some (VString "woof")
  /\ self (snd second) = self w
  /\ self (snd first') = moved_on (self w) 1
  /\ self (snd second') = moved_on (self w) 1.
Proof.
  apply (overlapping_failures_advance_once
           {| proxy_target := Mock.Cockroach; proxy_get := get_trap |} 6
           {| id := "307418529630"; provider := Mock.Cockroach; ms := 0 |}
           {| id := "741852963074"; provider := Mock.Dog; ms := 0 |}
           "speak" (fun _ => Thenable (Rejects Mock.no_speech))
           [VNumber 1] [VNumber 2] Mock.no_speech Mock.no_speech
           (VString "woof") (VString "woof")
           (Mock.fresh no_config [Mock.Cockroach; Mock.Dog; Mock.Cat]));
    try reflexivity.
  - cbn. discriminate.
  - cbn. lia.
  - right. reflexivity.
  - right. reflexivity.
Defined.

(** ** Synchronous and asynchronous results *)

Lemma no_thenable_in_trail (target : ProviderProxy) (p : string) :
  ~ Exists returned_thenable (trail target p).
Proof.
  intros H. apply Exists_exists in H. destruct H as (ev & Hin & Hev).
  unfold trail in Hin. apply in_app_or in Hin.
  destruct Hin as [Hin|[<-|[]]]; [|exact Hev].
  apply in_map_iff in Hin. destruct Hin as (q & <- & _). exact Hev.
Qed.

(** [_proxy] on the active entry, for a member that reads only data
    properties, and what calling its result comes to. *)
Lemma _proxy_quiet (retries : nat) (target : ProviderProxy) (p : string)
  (receiver : proxy_reader) (l : lookup) (w : world) :
  plain_reader receiver ->
  nth_error (_providers (self w)) (_activeProvider (self w)) = Some target ->
  lookup_of (provider target) p = Some l ->
  exists w1,
    self w1 = self w
    /\ log w1 = trail target p ++ log w
    /\ forall args,
         resume (_proxy retries target p receiver w) args =
         match l with
         | GetValue prop => (Returned prop, w1)
         | GetThrows er => on_failure retries target p receiver args er w1
         | GetFunction prop => closure retries target p receiver prop args w1
         end.
Proof.
  intros Hplain Htarget Hl.
  destruct (Reflect_get_quiet receiver target p l w Hplain Htarget Hl)
    as (w1 & Hget & Hs & Hlog).
  exists w1. split; [exact Hs|]. split; [exact Hlog|].
  intros args. rewrite _proxy_unfold, Hget.
  destruct l as [er|prop|prop]; try reflexivity.
  rewrite on_failure_unfold.
  destruct retries as [|retries']; [reflexivity|].
  destruct (negb _); [reflexivity|].
  destruct (_switch target w1) as [[provider|er'] w2]; reflexivity.
Qed.

(** What a read and call through [_proxy] returns is a promise of the
    engine exactly when one of the methods it called on the way returned a
    promise. *)
Lemma resume_proxy_promise (receiver : proxy_reader) (p : string)
  (args : list value) (retries : nat) :
  plain_reader receiver ->
  forall target w,
    nth_error (_providers (self w)) (_activeProvider (self w)) = Some target ->
    quiet_on (self w) p ->
    exists evs,
      log (snd (resume (_proxy retries target p receiver w) args)) = evs ++ log w
      /\ (is_promise (fst (resume (_proxy retries target p receiver w) args))
          <-> Exists returned_thenable evs).
Proof.
  intros Hplain.
  induction retries as [retries IH] using lt_wf_ind. intros target w Htarget Hall.
  assert (Hfo : forall er w0,
            self w0 = self w ->
            exists evs,
              log (snd (on_failure retries target p receiver args er w0))
              = evs ++ log w0
              /\ (is_promise
                    (fst (on_failure retries target p receiver args er w0))
                  <-> Exists returned_thenable evs)).
  { intros er w0 Hw0. rewrite on_failure_unfold.
    assert (Hstop : exists evs,
              log (snd (Threw er, w0)) = evs ++ log w0
              /\ (is_promise (fst (Threw er, w0))
                  <-> Exists returned_thenable evs)).
    { exists []. split; [reflexivity|].
      cbn. split; [contradiction|]. intros H. inversion H. }
    destruct retries as [|retries']; [exact Hstop|].
    destruct (negb _); [exact Hstop|]. clear Hstop.
    destruct (switched_entry_registered target target w0)
      as (selected & w1 & -> & Hsel & Hps & _ & _ & Hlog1);
      [rewrite Hw0; exact Htarget|].
    destruct (IH retries' ltac:(lia) selected w1 Hsel) as (evs & Hevs & Hiff).
    { unfold quiet_on. rewrite Hps, Hw0. exact Hall. }
    exists evs. rewrite <- Hlog1. split; assumption. }
  assert (Hplainly : forall evs (c : called) w0,
            log w0 = evs ++ log w ->
            ~ is_promise c -> ~ Exists returned_thenable evs ->
            exists evs',
              log (snd (c, w0)) = evs' ++ log w
              /\ (is_promise (fst (c, w0)) <-> Exists returned_thenable evs')).
  { intros evs c w0 Hlog Hc Hevs. exists evs. split; [exact Hlog|].
    cbn [fst]. tauto. }
  assert (Hlater : forall evs er w0,
            self w0 = self w ->
            log w0 = evs ++ log w ->
            ~ Exists returned_thenable evs ->
            exists evs',
              log (snd (on_failure retries target p receiver args er w0))
              = evs' ++ log w
              /\ (is_promise
                    (fst (on_failure retries target p receiver args er w0))
                  <-> Exists returned_thenable evs')).
  { intros evs er w0 Hw0 Hlog Hevs.
    destruct (Hfo er w0 Hw0) as (evs' & Hlog' & Hiff).
    exists (evs' ++ evs). split; [rewrite Hlog', Hlog; apply app_assoc|].
    rewrite Hiff, Exists_app. tauto. }
  pose proof (proj1 (Forall_forall _ _) Hall target
                (nth_error_In _ _ Htarget)) as Hq.
  destruct (lookup_of (provider target) p) as [l|] eqn:Hl; [|congruence].
  destruct (_proxy_quiet retries target p receiver l w Hplain Htarget Hl)
    as (w1 & Hs & Hlog1 & Heq).
  rewrite Heq. clear Heq.
  pose proof (no_thenable_in_trail target p) as Hquiet.
  destruct l as [er|prop|prop].
  - apply (Hlater (trail target p)); assumption.
  - apply (Hplainly (trail target p)); [exact Hlog1|exact (fun H => H)|exact Hquiet].
  - unfold closure. set (w2 := record (EApply target p args) w1).
    assert (Hlog2 : log w2 = (EApply target p args :: trail target p) ++ log w)
      by (unfold w2; cbn [record log]; rewrite Hlog1; reflexivity).
    assert (Hnone : (forall s, prop args <> Thenable s) ->
              ~ Exists returned_thenable (EApply target p args :: trail target p)).
    { intros Hno H. inversion H as [? ? H0|? ? H0].
      - destruct H0 as (prop' & s & Hget' & Hprop').
        rewrite Hl in Hget'. injection Hget' as <-. exact (Hno s Hprop').
      - exact (Hquiet H0). }
    assert (Hsome : forall s pr, prop args = Thenable s ->
              exists evs',
                log (snd (Promised pr, w2)) = evs' ++ log w
                /\ (is_promise (fst (Promised pr, w2))
                    <-> Exists returned_thenable evs')).
    { intros s pr Hs'. exists (EApply target p args :: trail target p).
      split; [exact Hlog2|]. cbn [fst is_promise]. split; [|tauto].
      intros _. apply Exists_cons_hd. exists prop, s. auto. }
    destruct (prop args) as [re|er|[re|er|]|er] eqn:Hprop.
    + apply (Hplainly (EApply target p args :: trail target p));
        [exact Hlog2|exact (fun H => H)|].
      apply Hnone. intros s. discriminate.
    + apply (Hlater (EApply target p args :: trail target p));
        [exact Hs|exact Hlog2|].
      apply Hnone. intros s. discriminate.
    + apply (Hsome (Resolves re)). reflexivity.
    + apply (Hsome (Rejects er)). reflexivity.
    + apply (Hsome NeverSettles). reflexivity.
    + apply (Hplainly (EApply target p args :: trail target p));
        [exact Hlog2|exact (fun H => H)|].
      apply Hnone. intros s. discriminate.
Qed.

(** A call through the proxy, of a member that on every registered
    provider reads nothing through [this] but data properties, returns a
    promise made by [re.then(...).catch(...)] exactly when one of the
    provider methods it called before returning gave back a promise: a
    method that is synchronous on every provider stays synchronous through
    the proxy, and throws instead of rejecting. *)
Theorem promise_iff_thenable_returned (proxy : Proxy) (stack : nat)
  (p : string) (args : list value) (w : world) :
  initialize (self w) = Normal proxy ->
  _activeProvider (self w) < List.length (_providers (self w)) ->
  quiet_on (self w) p ->
  exists evs,
    log (snd (access proxy (S (S stack)) p args w)) = evs ++ log w
    /\ (is_promise (fst (access proxy (S (S stack)) p args w))
        <-> Exists returned_thenable evs).
Proof.
  intros Hinit Hactive Hall.
  destruct (active_entry _ Hactive) as (target & Htarget).
  unfold access.
  change (read proxy (S (S stack)) p w)
    with (proxy_get proxy p (read proxy (S stack)) w).
  rewrite (initialize_get _ proxy Hinit). unfold get_trap. rewrite Htarget.
  apply (resume_proxy_promise (read proxy (S stack)) p args (_retries (self w))
           (read_plain proxy stack (initialize_get _ _ Hinit))
           target w Htarget Hall).
Qed.

Lemma promise_iff_thenable_returned_witness :
  let proxy := {| proxy_target := Mock.Cockroach; proxy_get := get_trap |} in
  let w := Mock.fresh no_config [Mock.Cockroach; Mock.Dog] in
  exists evs,
    log (snd (access proxy 8 "syncSpeak" [] w)) = evs ++ log w
    /\ (is_promise (fst (access proxy 8 "syncSpeak" [] w))
        <-> Exists returned_thenable evs).
Proof.
  apply (promise_iff_thenable_returned
           {| proxy_target := Mock.Cockroach; proxy_get := get_trap |} 6
           "syncSpeak" []
           (Mock.fresh no_config [Mock.Cockroach; Mock.Dog])).
  - reflexivity.
  - cbn. lia.
  - repeat constructor; discriminate.
Defined.

(** ** One access after another *)



(** ** A full round *)




(** ** Registration, in sequence *)

Lemma addProviders_entries (providers : list Provider) :
  forall this rnd,
  exists this' rnd' added,
    addProviders providers this rnd = (Normal this', rnd')
    /\ _providers this' = _providers this ++ added
    /\ map provider added = providers
    /\ Forall (fun entry => ms entry = 0%Z /\ 12 <= String.length (id entry))
         added
    /\ _activeProvider this' = _activeProvider this
    /\ _retries this' = _retries this
    /\ _shouldRetryOn this' = _shouldRetryOn this.
Proof.
  induction providers as [|pv rest IH]; intros this rnd; cbn [addProviders].
  - exists this, rnd, []. rewrite app_nil_r. repeat split; constructor.
  - destruct (addProvider_appends pv this rnd) as (i & rnd1 & Hi & ->).
    set (this1 := {| _retries := _retries this |}).
    destruct (IH this1 rnd1)
      as (this' & rnd' & added & -> & Hps & Hmap & Hall & Ha & Hr & Hs).
    exists this', rnd', ({| id := i; provider := pv; ms := 0 |} :: added).
    split; [reflexivity|]. split.
    { rewrite Hps. cbn. rewrite <- app_assoc. reflexivity. }
    split; [cbn; rewrite Hmap; reflexivity|].
    split; [constructor; [cbn; auto|exact Hall]|].
    auto.
Qed.

(** A chain of registrations after the constructor never throws. It
    leaves one entry per provider, in the order of registration, each with
    zero latency and an identifier of at least twelve characters; the
    active index is 0, so the first provider registered is the one the
    proxy asks first, and the retries and the policy are those of the
    configuration. *)
Theorem registrations_keep_order (config : FailoverProviderConfig)
  (providers : list Provider) (rnd : random) :
  exists this rnd',
    addProviders providers (constructor config) rnd = (Normal this, rnd')
    /\ map provider (_providers this) = providers
    /\ Forall (fun entry => ms entry = 0%Z /\ 12 <= String.length (id entry))
         (_providers this)
    /\ _activeProvider this = 0
    /\ _retries this = _retries (constructor config)
    /\ _shouldRetryOn this = _shouldRetryOn (constructor config)
    /\ (forall first rest,
          providers = first :: rest ->
          exists target,
            nth_error (_providers this) (_activeProvider this) = Some target
            /\ provider target = first).
Proof.
  destruct (addProviders_entries providers (constructor config) rnd)
    as (this & rnd' & added & Hadd & Hps & Hmap & Hall & Ha & Hr & Hs).
  cbn [constructor _providers _activeProvider app] in Hps, Ha.
  exists this, rnd'. rewrite Hps, Ha.
  split; [exact Hadd|]. split; [exact Hmap|]. split; [exact Hall|].
  split; [reflexivity|]. split; [exact Hr|]. split; [exact Hs|].
  intros first rest ->. destruct added as [|target added]; [discriminate|].
  exists target. split; [reflexivity|]. cbn in Hmap. congruence.
Qed.

(** ** Registering after [initialize] *)

(** The proxy reads the registry at each access, so a provider registered
    after [initialize] takes part: when the active entry is the last one
    and fails with an error the policy retries, the access fails over to
    the provider registered since and returns its answer. *)
Theorem provider_registered_later_is_used (proxy : Proxy) (stack : nat)
  (target : ProviderProxy) (pv : Provider) (p : string) (args : list value)
  (er re : value) (w : world) (rnd rnd' : random) (this' : FailoverProvider) :
  initialize (self w) = Normal proxy ->
  nth_error (_providers (self w)) (_activeProvider (self w)) = Some target ->
  S (_activeProvider (self w)) = List.length (_providers (self w)) ->
  1 <= _retries (self w) ->
  fails_with (provider target) p args er ->
  _shouldRetryOn (self w) er = true ->
  succeeds_with pv p args re ->
  addProvider pv (self w) rnd = (Normal this', rnd') ->
  let r := await (access proxy (S (S stack)) p args (with_self w this')) in
  result_value (fst r) = Some re
  /\ exists served_by,
       nth_error (_providers (self (snd r))) (_activeProvider (self (snd r)))
       = Some served_by
       /\ provider served_by = pv.
Proof.
  intros Hinit Htarget Hlast Hretries Hfails Hretry Hsucc Hadd.
  destruct (addProvider_appends pv (self w) rnd) as (i & rnd0 & _ & Heq).
  rewrite Heq in Hadd. injection Hadd as <- _.
  set (new := {| id := i; provider := pv; ms := 0 |}).
  set (this1 := {| _retries := _retries (self w) |}).
  set (w1 := with_self w this1).
  assert (Hcur : nth_error (_providers (self w1)) (_activeProvider (self w1))
                 = Some target).
  { cbn. rewrite nth_error_app1; [exact Htarget|lia]. }
  assert (Hnew : entry_after (self w1) 1 = Some new).
  { unfold entry_after. cbn. rewrite length_app. cbn.
    rewrite Nat.mod_small by lia.
    rewrite nth_error_app2 by lia.
    replace (_activeProvider (self w) + 1 - List.length (_providers (self w)))
      with 0 by lia. reflexivity. }
  cbv zeta.
  rewrite (await_access_serve (self w) proxy (S stack) target p args w1
             Hinit Hcur).
  destruct (serve_reaches (read proxy (S stack)) p args re 1
              (read_plain proxy stack (initialize_get _ _ Hinit))
              (_retries (self w1)) target w1)
    as (Hval & Hself & _).
  - exact Hretries.
  - exact Hcur.
  - intros j Hj. assert (j = 0) as -> by lia.
    exists target, er. split; [apply (entry_after_0 _ _ Hcur)|]. auto.
  - exists new. split; [exact Hnew|exact Hsucc].
  - split; [exact Hval|]. exists new. rewrite Hself. split; [exact Hnew|reflexivity].
Qed.

Lemma provider_registered_later_is_used_witness :
  let proxy := {| proxy_target := Mock.Cockroach; proxy_get := get_trap |} in
  let w := Mock.fresh no_config [Mock.Cockroach] in
  let r :=
    await (access proxy 8 "speak" []
             (with_self w (Mock.factory no_config [Mock.Cockroach; Mock.Dog]))) in
  result_value (fst r) = Some (VString "woof")
  /\ exists served_by,
       nth_error (_providers (self (snd r))) (_activeProvider (self (snd r)))
       = Some served_by
       /\ provider served_by = Mock.Dog.
Proof.
  apply (provider_registered_later_is_used
           {| proxy_target := Mock.Cockroach; proxy_get := get_trap |} 6
           {| id := "307418529630"; provider := Mock.Cockroach; ms := 0 |}
           Mock.Dog "speak" [] Mock.no_speech (VString "woof")
           (Mock.fresh no_config [Mock.Cockroach])
           (snd (addProvider Mock.Cockroach (constructor no_config) Mock.spread))
           (snd (addProvider Mock.Dog (constructor no_config)
                   (snd (addProvider Mock.Cockroach (constructor no_config)
                           Mock.spread))))
           (Mock.factory no_config [Mock.Cockroach; Mock.Dog])).
  - reflexivity.
  - reflexivity.
  - reflexivity.
  - cbn. lia.
  - right. reflexivity.
  - reflexivity.
  - right. reflexivity.
  - vm_compute. reflexivity.
Defined.
